(** * Content scraper: navigation crawler and content-addressed image downloader

    A shallow embedding of
    - [core/navigation_crawler.js]  (class [NavigationCrawler]),
    - [core/scraper_with_images.js] (the link loop of [scrapePage] and the
      dequeue step of [scrapeWebsite]),
    - [utils/image_downloader_enhanced.js] (class [EnhancedImageDownloader]),
    together with the properties of the traversal scheduler and of the hash
    registry.

    JavaScript [Map]s that are only read by key are finite maps ([gmap]);
    the three maps of the downloader, which [generateManifest] enumerates in
    insertion order, are insertion-ordered association lists.  JavaScript
    numbers that hold levels, counters and byte counts are integers ([Z]).
    [undefined]/[null] is [None]. *)

From Stdlib Require Import ZArith Ascii String List Permutation Sorted.
From stdpp Require Import base option list gmap strings.

Local Open Scope string_scope.
Local Open Scope Z_scope.

(** ** JavaScript value conventions *)

(** [x || d] on a possibly-undefined number: [undefined] and [0] are falsy. *)
Definition num_or (x : option Z) (d : Z) : Z :=
  match x with
  | Some v => if v =? 0 then d else v
  | None => d
  end.

(** [s || d] on a string: the empty string is falsy. *)
Definition str_or (s d : string) : string :=
  match s with
  | EmptyString => d
  | _ => s
  end.

(** Truthiness of a possibly-null string ([!parentUrl], [if (img.src)]). *)
Definition truthy_str (s : option string) : bool :=
  match s with
  | Some (String _ _) => true
  | _ => false
  end.

(** ** Strings *)

(** A string is a sequence of code units below 256 (the Latin-1 range of
    UTF-16).  On that range [String.prototype.toLowerCase] maps [A-Z]
    (65-90) and the accented capitals 192-214 and 216-222 to the code
    unit 32 above; every other code unit, the multiplication sign 215
    included, is left as it is. *)
Definition lower_ascii (c : ascii) : ascii :=
  let n := N_of_ascii c in
  if ((65 <=? n) && (n <=? 90)
      || (192 <=? n) && (n <=? 222) && negb (n =? 215))%N
  then ascii_of_N (n + 32) else c.

Fixpoint toLowerCase (s : string) : string :=
  match s with
  | EmptyString => EmptyString
  | String c s' => String (lower_ascii c) (toLowerCase s')
  end.

Fixpoint startsWith (s k : string) : bool :=
  match k, s with
  | EmptyString, _ => true
  | String _ _, EmptyString => false
  | String a k', String b s' => if Ascii.eqb a b then startsWith s' k' else false
  end.

(** [s.includes(k)]: [k] occurs in [s] as a contiguous substring. *)
Fixpoint includes (s k : string) : bool :=
  startsWith s k ||
  match s with
  | EmptyString => false
  | String _ s' => includes s' k
  end.

(** [s.split(c)] for a one-character separator. *)
Fixpoint split (c : ascii) (s : string) : list string :=
  match s with
  | EmptyString => [EmptyString]
  | String a s' =>
      if Ascii.eqb a c then EmptyString :: split c s'
      else match split c s' with
           | [] => [String a EmptyString]
           | w :: ws => String a w :: ws
           end
  end.

(** [parts.join(sep)]. *)
Fixpoint join (sep : string) (parts : list string) : string :=
  match parts with
  | [] => EmptyString
  | [p] => p
  | p :: ps => p +:+ sep +:+ join sep ps
  end.

Definition nonempty (s : string) : bool :=
  match s with
  | EmptyString => false
  | _ => true
  end.

(** * The navigation crawler *)

Module Nav.

(** The constructor argument: every field may be missing. *)
Record RawConfig := {
  raw_maxLevel : option Z;
  raw_levelLimits : option (gmap Z Z);
  raw_legalKeywords : option (list string)
}.

Record Config := {
  maxLevel : Z;
  levelLimits : gmap Z Z;
  legalKeywords : list string
}.

Definition defaultLevelLimits : gmap Z Z :=
  <[1 := -1]> (<[2 := -1]> (<[3 := 1]> ∅)).

Definition defaultLegalKeywords : list string :=
  ["impressum"; "datenschutz"; "agb"; "privacy";
   "terms"; "legal"; "cookies"; "disclaimer"].

(** The [config] object built by the constructor. *)
Definition mkConfig (c : RawConfig) : Config :=
  {| maxLevel := num_or (raw_maxLevel c) 3;
     levelLimits := default defaultLevelLimits (raw_levelLimits c);
     legalKeywords := default defaultLegalKeywords (raw_legalKeywords c) |}.

Record Crawler := {
  config : Config;
  urlLevels : gmap string Z;              (* URL -> level *)
  levelCounts : gmap Z Z;                 (* level -> count *)
  categoryPages : gmap string (list string) (* category -> pages *)
}.

Definition new (c : RawConfig) : Crawler :=
  {| config := mkConfig c;
     urlLevels := ∅;
     levelCounts := ∅;
     categoryPages := ∅ |}.

(** [isLegalPage(url)] *)
Definition isLegalPage (cr : Crawler) (url : string) : bool :=
  let urlLower := toLowerCase url in
  existsb (fun keyword => includes urlLower keyword) (legalKeywords (config cr)).

(** [determineLevel(url, parentUrl)] *)
Definition determineLevel (cr : Crawler) (url : string) (parentUrl : option string) : Z :=
  if isLegalPage cr url then 0
  else if negb (truthy_str parentUrl) then 1
  else
    let parentLevel := num_or (parentUrl ≫= fun p => urlLevels cr !! p) 0 in
    parentLevel + 1.

(** [shouldCrawl(url, parentUrl)] *)
Definition shouldCrawl (cr : Crawler) (url : string) (parentUrl : option string) : bool :=
  let level := determineLevel cr url parentUrl in
  if level =? 0 then true
  else if level >? maxLevel (config cr) then false
  else
    let limit := levelLimits (config cr) !! level in
    if bool_decide (limit = Some (-1)) then true
    else
      let currentCount := num_or (levelCounts cr !! level) 0 in
      match limit with
      | Some l => currentCount <? l
      | None => false
      end.

(** [registerUrl(url, parentUrl)]: the returned level and the mutated crawler. *)
Definition registerUrl (cr : Crawler) (url : string) (parentUrl : option string)
  : Z * Crawler :=
  let level := determineLevel cr url parentUrl in
  let urlLevels' := <[url := level]> (urlLevels cr) in
  let currentCount := num_or (levelCounts cr !! level) 0 in
  (level,
   {| config := config cr;
      urlLevels := urlLevels';
      levelCounts := <[level := currentCount + 1]> (levelCounts cr);
      categoryPages := categoryPages cr |}).

Section Category.

(** [new URL(url).pathname]; [None] when the constructor throws. *)
Variable pathname : string -> option string.

(** [getCategory(url)]; [None] when [new URL(url)] throws. *)
Definition getCategory (url : string) : option string :=
  pathname url ≫= fun p =>
  let pathParts := filter (fun s => Is_true (nonempty s)) (split "/" p) in
  Some (str_or (join "/" (take 2 pathParts)) "root").

(** [shouldCrawlLevel3(url)] *)
Definition shouldCrawlLevel3 (cr : Crawler) (url : string) : option bool :=
  getCategory url ≫= fun category =>
  let pagesInCategory := default [] (categoryPages cr !! category) in
  let limit := num_or (levelLimits (config cr) !! 3) 1 in
  Some (Z.of_nat (length pagesInCategory) <? limit).

(** [registerLevel3Page(url)] *)
Definition registerLevel3Page (cr : Crawler) (url : string) : option Crawler :=
  getCategory url ≫= fun category =>
  let pagesInCategory := default [] (categoryPages cr !! category) in
  Some {| config := config cr;
          urlLevels := urlLevels cr;
          levelCounts := levelCounts cr;
          categoryPages := <[category := (pagesInCategory ++ [url])%list]> (categoryPages cr) |}.

(** The guarded registration of [scrapePage]:
    [if (shouldCrawlLevel3(url)) { ...; registerLevel3Page(url) }].
    An exception of [getCategory] leaves the crawler as it is. *)
Definition sampleLevel3 (cr : Crawler) (url : string) : Crawler :=
  match shouldCrawlLevel3 cr url with
  | Some true => default cr (registerLevel3Page cr url)
  | _ => cr
  end.

(** The operations that mutate a crawler. *)
Inductive Op :=
| OpRegisterUrl (url : string) (parentUrl : option string)
| OpSampleLevel3 (url : string).

Definition applyOp (cr : Crawler) (op : Op) : Crawler :=
  match op with
  | OpRegisterUrl url parentUrl => (registerUrl cr url parentUrl).2
  | OpSampleLevel3 url => sampleLevel3 cr url
  end.

Definition runOps (cr : Crawler) (ops : list Op) : Crawler :=
  foldl applyOp cr ops.

End Category.

(** An entry of the scraper's [pendingUrls] array. *)
Record WorkItem := {
  url : string;
  parentUrl : option string;
  level : Z;
  isNavigation : bool   (* truthiness of [link.isNavigation] *)
}.

(** The comparator passed to [urls.sort] in [prioritizeUrls]. *)
Definition compareItems (cr : Crawler) (a b : WorkItem) : Z :=
  let levelA := num_or (urlLevels cr !! url a) 999 in
  let levelB := num_or (urlLevels cr !! url b) 999 in
  if (levelA =? 0) && negb (levelB =? 0) then -1
  else if (levelB =? 0) && negb (levelA =? 0) then 1
  else if negb (levelA =? levelB) then levelA - levelB
  else if isNavigation a && negb (isNavigation b) then -1
  else if isNavigation b && negb (isNavigation a) then 1
  else 0.

(** [Array.prototype.sort(cmp)] is a stable sort: an element is placed
    before the first element it does not compare greater than. *)
Fixpoint insertBy {A} (cmp : A -> A -> Z) (x : A) (l : list A) : list A :=
  match l with
  | [] => [x]
  | y :: l' => if cmp x y <=? 0 then x :: y :: l' else y :: insertBy cmp x l'
  end.

Definition sortBy {A} (cmp : A -> A -> Z) (l : list A) : list A :=
  foldr (insertBy cmp) [] l.

(** [prioritizeUrls(urls)] *)
Definition prioritizeUrls (cr : Crawler) (urls : list WorkItem) : list WorkItem :=
  sortBy (compareItems cr) urls.

End Nav.

(** * The scraper's use of the crawler ([core/scraper_with_images.js]) *)

Module Scraper.
Import Nav.

Record Scraper := {
  navCrawler : Crawler;
  visitedUrls : gset string;
  pendingUrls : list WorkItem
}.

(** A normalized internal link found on a page: [absoluteUrl] and the
    truthiness of [link.isNavigation]. *)
Definition Link : Type := string * bool.

Section Loop.

Variable pathname : string -> option string.

Definition push (s : Scraper) (cr : Crawler) (item : WorkItem) : Scraper :=
  {| navCrawler := cr;
     visitedUrls := visitedUrls s;
     pendingUrls := (pendingUrls s ++ [item])%list |}.

(** One iteration of the link loop of [scrapePage], from the test
    [!visitedUrls.has(absoluteUrl) && shouldCrawl(absoluteUrl, url)] on.
    [None]: [getCategory] threw in [shouldCrawlLevel3] and the exception
    left the loop, the state being the one before ([registerLevel3Page]
    parses the same URL and cannot throw after it). *)
Definition processLink (pageUrl : string) (s : Scraper) (link : Link) : option Scraper :=
  let '(absoluteUrl, isNav) := link in
  let cr := navCrawler s in
  if negb (bool_decide (absoluteUrl ∈ visitedUrls s))
     && shouldCrawl cr absoluteUrl (Some pageUrl) then
    let level := determineLevel cr absoluteUrl (Some pageUrl) in
    let item := {| url := absoluteUrl; parentUrl := Some pageUrl;
                   level := level; isNavigation := isNav |} in
    if level =? 3 then
      shouldCrawlLevel3 pathname cr absoluteUrl ≫= fun ok =>
      if ok : bool then
        registerLevel3Page pathname cr absoluteUrl ≫= fun cr' =>
        Some (push s cr' item)
      else Some s
    else Some (push s cr item)
  else Some s.

(** The [for (const link of navLinks)] loop; an exception ends it. *)
Fixpoint processLinks (pageUrl : string) (s : Scraper) (links : list Link) : Scraper :=
  match links with
  | [] => s
  | link :: rest =>
      match processLink pageUrl s link with
      | Some s' => processLinks pageUrl s' rest
      | None => s
      end
  end.

(** The head of the loop body of [scrapeWebsite]: re-sort, then [shift]. *)
Definition dequeue (s : Scraper) : option (WorkItem * Scraper) :=
  match prioritizeUrls (navCrawler s) (pendingUrls s) with
  | [] => None
  | item :: rest =>
      Some (item, {| navCrawler := navCrawler s;
                     visitedUrls := visitedUrls s;
                     pendingUrls := rest |})
  end.

(** [if (visitedUrls.has(url)) continue; visitedUrls.add(url);
     const level = registerUrl(url, parentUrl)].
    [None] is the [continue]. *)
Definition visit (s : Scraper) (item : WorkItem) : option Z * Scraper :=
  if bool_decide (url item ∈ visitedUrls s) then (None, s)
  else
    let '(level, cr') := registerUrl (navCrawler s) (url item) (parentUrl item) in
    (Some level,
     {| navCrawler := cr';
        visitedUrls := {[url item]} ∪ visitedUrls s;
        pendingUrls := pendingUrls s |}).

(** One pass through the [while] body; [links] are the links the page
    fetcher and the DOM layer deliver for the dequeued URL (none when the
    fetch fails). *)
Definition iteration (links : list Link) (s : Scraper) : Scraper :=
  match dequeue s with
  | None => s
  | Some (item, s1) =>
      match visit s1 item with
      | (None, s2) => s2
      | (Some _, s2) => processLinks (url item) s2 links
      end
  end.

(** The state before the loop: the seed is pending. *)
Definition start (c : RawConfig) (baseUrl : string) : Scraper :=
  {| navCrawler := new c;
     visitedUrls := ∅;
     pendingUrls := [ {| url := baseUrl; parentUrl := None;
                         level := 1; isNavigation := true |} ] |}.

(** The states of a crawl, whatever the pages contain. *)
Inductive reachable (c : RawConfig) (baseUrl : string) : Scraper -> Prop :=
| reach_start : reachable c baseUrl (start c baseUrl)
| reach_iter s links :
    reachable c baseUrl s -> reachable c baseUrl (iteration links s).

End Loop.

Section Urls.

(** [new URL(url, baseUrl).href]; [None] when the constructor throws. *)
Variable href : string -> string -> option string.

(** [s.replace(/\/$/, '')]: one slash at the very end is dropped. *)
Fixpoint stripTrailingSlash (s : string) : string :=
  match s with
  | EmptyString => EmptyString
  | String c EmptyString => if Ascii.eqb c "/" then EmptyString else s
  | String c rest => String c (stripTrailingSlash rest)
  end.

(** [normalizeUrl(url, baseUrl)]; [None] is the [null] of the [catch]. *)
Definition normalizeUrl (url baseUrl : string) : option string :=
  stripTrailingSlash <$> href url baseUrl.

End Urls.

End Scraper.

(** * Insertion-ordered maps (JavaScript [Map]) *)

Module JsMap.

Section Defs.
Context {K V : Type} `{EqDecision K}.

Definition t : Type := list (K * V).

Definition empty : t := [].

(** [m.get(k)] *)
Fixpoint get (m : t) (k : K) : option V :=
  match m with
  | [] => None
  | (k', v) :: m' => if decide (k = k') then Some v else get m' k
  end.

(** [m.has(k)] *)
Definition has (m : t) (k : K) : bool :=
  match get m k with
  | Some _ => true
  | None => false
  end.

(** [m.set(k, v)]: an existing key keeps its position, a new one goes last. *)
Fixpoint set (m : t) (k : K) (v : V) : t :=
  match m with
  | [] => [(k, v)]
  | (k', v') :: m' =>
      if decide (k = k') then (k, v) :: m' else (k', v') :: set m' k v
  end.

(** [Array.from(m.entries())] *)
Definition entries (m : t) : list (K * V) := m.

(** A map built by [set] alone holds each key once. *)
Definition wf (m : t) : Prop := NoDup m.*1.

End Defs.

Arguments t : clear implicits.

End JsMap.

(** * The content-addressed image downloader *)

Module Downloader.

Definition bytes : Type := list Byte.byte.

(** The fields of a WHATWG [URL] object that the downloader reads. *)
Record ParsedUrl := {
  protocol : string;
  hostname : string;
  pathname : string
}.

(** The Node.js facilities the downloader calls. *)
Class NodeApi := {
  (** [new URL(s)]; [None] when the constructor throws *)
  parseUrl : string -> option ParsedUrl;
  (** [crypto.createHash('md5').update(buffer).digest('hex')] *)
  md5hex : bytes -> string;
  (** [path.join(...)], [path.dirname], [path.basename] *)
  path_join : list string -> string;
  path_dirname : string -> string;
  path_basename : string -> string
}.

Record RawConfig := {
  raw_outputDir : option string;
  raw_maxSize : option Z;
  raw_timeout : option Z
}.

Record Stats := {
  total : Z;
  downloaded : Z;
  duplicates : Z;
  failed : Z;
  totalSize : Z
}.

Record Downloader := {
  baseOutputDir : string;
  maxSize : Z;
  timeout : Z;
  hashToPath : JsMap.t string string;  (* hash -> local path *)
  urlToHash : JsMap.t string string;   (* url -> hash *)
  urlToPath : JsMap.t string string;   (* url -> local path *)
  stats : Stats
}.

(** The constructor. *)
Definition new (c : RawConfig) : Downloader :=
  {| baseOutputDir := str_or (default "" (raw_outputDir c)) "./output/images";
     maxSize := num_or (raw_maxSize c) (10 * 1024 * 1024);
     timeout := num_or (raw_timeout c) 30000;
     hashToPath := JsMap.empty;
     urlToHash := JsMap.empty;
     urlToPath := JsMap.empty;
     stats := {| total := 0; downloaded := 0; duplicates := 0;
                 failed := 0; totalSize := 0 |} |}.

(** What the downloader does to the outside world, in order:
    files written by [fs.writeFileSync], directories present
    ([fs.existsSync] / [fs.mkdirSync]), requests issued by [protocol.get],
    calls of [request.destroy()].  The file system calls are taken to
    succeed. *)
Record World := {
  written : list (string * bytes);
  dirs : list string;
  requested : list string;
  destroyed : list string
}.

Definition writeFileSync (w : World) (p : string) (data : bytes) : World :=
  {| written := (written w ++ [(p, data)])%list; dirs := dirs w;
     requested := requested w; destroyed := destroyed w |}.

(** [if (!fs.existsSync(dir)) fs.mkdirSync(dir, { recursive: true })] *)
Definition ensureDir (w : World) (dir : string) : World :=
  if bool_decide (dir ∈ dirs w) then w
  else {| written := written w; dirs := (dirs w ++ [dir])%list;
          requested := requested w; destroyed := destroyed w |}.

(** [protocol.get(imageUrl, ...)] *)
Definition httpGet (w : World) (u : string) : World :=
  {| written := written w; dirs := dirs w;
     requested := (requested w ++ [u])%list; destroyed := destroyed w |}.

Definition destroy (w : World) (u : string) : World :=
  {| written := written w; dirs := dirs w;
     requested := requested w; destroyed := (destroyed w ++ [u])%list |}.

(** ** [simpleHash]: 32-bit string hash, printed in base 36 *)

(** ToInt32 *)
Definition toInt32 (z : Z) : Z :=
  let m := z mod 2 ^ 32 in
  if m <? 2 ^ 31 then m else m - 2 ^ 32.

Fixpoint simpleHash_loop (str : string) (hash : Z) : Z :=
  match str with
  | EmptyString => hash
  | String c rest =>
      let char := Z.of_N (N_of_ascii c) in
      let hash1 := (toInt32 (hash * 2 ^ 5) - hash) + char in
      simpleHash_loop rest (toInt32 hash1)
  end.

Definition digit36 (d : Z) : ascii :=
  if d <? 10 then ascii_of_N (Z.to_N (48 + d)) else ascii_of_N (Z.to_N (87 + d)).

(** [n.toString(36)] for [0 <= n < 36 ^ 7]. *)
Fixpoint toString36_from (fuel : nat) (n : Z) (acc : string) : string :=
  let acc' := String (digit36 (n mod 36)) acc in
  match fuel with
  | O => acc'
  | S fuel' => if n / 36 =? 0 then acc' else toString36_from fuel' (n / 36) acc'
  end.

Definition simpleHash (str : string) : string :=
  toString36_from 6 (Z.abs (simpleHash_loop str 0)) EmptyString.

(** ** Results *)

(** The object a download resolves with. *)
Record ImageResult := {
  url : string;
  localPath : string;
  hash : option string;
  duplicate : bool;
  cached : bool;
  duplicateOf : option string;
  size : option Z
}.

(** The errors a download rejects with. *)
Inductive DownloadError :=
| InvalidUrl                        (* thrown by [new URL(imageUrl)] *)
| InvalidProtocol (p : string)      (* thrown by [http.get] *)
| HttpStatus (statusCode : Z)       (* "HTTP <code>" *)
| TooLarge (contentLength : Z)      (* "Image too large: <n> bytes" *)
| SizeExceeded                      (* "Image size exceeded maximum" *)
| NetworkError (msg : string)       (* the request's 'error' event *)
| DownloadTimeout.                  (* "Download timeout" *)

Inductive Outcome :=
| Resolved (r : ImageResult)
| Rejected (e : DownloadError).

(** An event of one request, as the handlers of [downloadImage] receive
    it. *)
Inductive Event :=
| Data (chunk : bytes)              (* 'data' on the response *)
| End                               (* 'end' on the response *)
| RequestError (msg : string)       (* 'error' on the request *)
| RequestTimeout.                   (* 'timeout' on the request *)

(** What the network delivers for one request: the response, if one
    arrives, with its status code and its content length
    ([parseInt(headers['content-length'], 10)], [None] for [NaN]), and the
    events that follow, in the order in which they are emitted.  Nothing is
    assumed about that order: the handlers are run on the events as they
    come, also on those emitted after [request.destroy()] or after the
    promise was settled (an ['end'] whose body had arrived when the request
    was destroyed; the ['error'] that [request.destroy()] raises after a
    ['timeout']).  A list that ends without an event that settles the
    promise is a request that goes silent (a connection closed in the
    middle of the body emits ['aborted'] and ['close'], for which no
    handler is registered). *)
Inductive Response :=
| NoResponse (events : list Event)
| Reply (statusCode : Z) (contentLength : option Z) (events : list Event).

Definition is_size_error (e : DownloadError) : bool :=
  match e with
  | TooLarge _ | SizeExceeded => true
  | _ => false
  end.

Definition bump_failed (d : Downloader) : Downloader :=
  let s := stats d in
  {| baseOutputDir := baseOutputDir d; maxSize := maxSize d; timeout := timeout d;
     hashToPath := hashToPath d; urlToHash := urlToHash d; urlToPath := urlToPath d;
     stats := {| total := total s; downloaded := downloaded s;
                 duplicates := duplicates s; failed := failed s + 1;
                 totalSize := totalSize s |} |}.

Definition bump_total (d : Downloader) : Downloader :=
  let s := stats d in
  {| baseOutputDir := baseOutputDir d; maxSize := maxSize d; timeout := timeout d;
     hashToPath := hashToPath d; urlToHash := urlToHash d; urlToPath := urlToPath d;
     stats := {| total := total s + 1; downloaded := downloaded s;
                 duplicates := duplicates s; failed := failed s;
                 totalSize := totalSize s |} |}.

Definition bump_duplicates (d : Downloader) : Downloader :=
  let s := stats d in
  {| baseOutputDir := baseOutputDir d; maxSize := maxSize d; timeout := timeout d;
     hashToPath := hashToPath d; urlToHash := urlToHash d; urlToPath := urlToPath d;
     stats := {| total := total s; downloaded := downloaded s;
                 duplicates := duplicates s + 1; failed := failed s;
                 totalSize := totalSize s |} |}.

(** One pending call of [downloadImage]: the variables its handlers close
    over, whether the response stream is delivering (the ['data'] and
    ['end'] handlers are attached and ['end'] has not been emitted: a stream
    emits ['end'] once and nothing after it), and the promise, [None] until
    [resolve] or [reject] is called. *)
Record Transfer := {
  downloadedData : bytes;
  downloadedSize : Z;
  flowing : bool;
  promise : option Outcome
}.

(** [resolve(...)] and [reject(...)]: the first call settles the promise,
    later calls do nothing. *)
Definition settle (o : Outcome) (t : Transfer) : Transfer :=
  {| downloadedData := downloadedData t; downloadedSize := downloadedSize t;
     flowing := flowing t;
     promise := match promise t with
                | None => Some o
                | Some settled => Some settled
                end |}.

(** [contentLength && contentLength > this.maxSize]: the offending length. *)
Definition declaredTooLarge (maxSize : Z) (contentLength : option Z) : option Z :=
  match contentLength with
  | Some n => if negb (n =? 0) && (n >? maxSize) then Some n else None
  | None => None
  end.

Section WithNode.
Context `{NodeApi}.

(** [getLocalPathFromUrl(imageUrl, baseUrl)] *)
Definition getLocalPathFromUrl (d : Downloader) (imageUrl baseUrl : string) : string :=
  match parseUrl imageUrl, parseUrl baseUrl with
  | Some url, Some _ =>
      let cleanPath :=
        match pathname url with
        | String "/" rest => rest
        | p => p
        end in
      path_join [baseOutputDir d; hostname url; cleanPath]
  | _, _ =>
      path_join [baseOutputDir d; "fallback";
                 "image_" +:+ simpleHash imageUrl +:+ ".jpg"]
  end.

(** The ['end'] handler of [downloadImage]. *)
Definition onEnd (d : Downloader) (w : World) (imageUrl localPath : string)
    (downloadedData : bytes) (downloadedSize : Z) : Outcome * Downloader * World :=
  let hash := md5hex downloadedData in
  match JsMap.get (hashToPath d) hash with
  | Some existingPath =>
      let s := stats d in
      (Resolved {| url := imageUrl; localPath := existingPath; hash := Some hash;
                   duplicate := true; cached := false;
                   duplicateOf := Some existingPath; size := Some downloadedSize |},
       {| baseOutputDir := baseOutputDir d; maxSize := maxSize d; timeout := timeout d;
          hashToPath := hashToPath d;
          urlToHash := JsMap.set (urlToHash d) imageUrl hash;
          urlToPath := JsMap.set (urlToPath d) imageUrl existingPath;
          stats := {| total := total s; downloaded := downloaded s;
                      duplicates := duplicates s + 1; failed := failed s;
                      totalSize := totalSize s |} |},
       w)
  | None =>
      let s := stats d in
      (Resolved {| url := imageUrl; localPath := localPath; hash := Some hash;
                   duplicate := false; cached := false;
                   duplicateOf := None; size := Some downloadedSize |},
       {| baseOutputDir := baseOutputDir d; maxSize := maxSize d; timeout := timeout d;
          hashToPath := JsMap.set (hashToPath d) hash localPath;
          urlToHash := JsMap.set (urlToHash d) imageUrl hash;
          urlToPath := JsMap.set (urlToPath d) imageUrl localPath;
          stats := {| total := total s; downloaded := downloaded s + 1;
                      duplicates := duplicates s; failed := failed s;
                      totalSize := totalSize s + downloadedSize |} |},
       writeFileSync w localPath downloadedData)
  end.

(** The ['data'] handler. *)
Definition onData (d : Downloader) (w : World) (imageUrl : string)
    (t : Transfer) (chunk : bytes) : Transfer * World :=
  let downloadedSize' := downloadedSize t + Z.of_nat (length chunk) in
  if downloadedSize' >? maxSize d
  then (settle (Rejected SizeExceeded)
          {| downloadedData := downloadedData t; downloadedSize := downloadedSize';
             flowing := flowing t; promise := promise t |},
        destroy w imageUrl)
  else ({| downloadedData := (downloadedData t ++ chunk)%list;
           downloadedSize := downloadedSize';
           flowing := flowing t; promise := promise t |}, w).

(** One event delivered to the handlers registered for it.  The ['data']
    and ['end'] handlers test neither whether the request was destroyed
    nor whether the promise is settled. *)
Definition deliver (imageUrl localPath : string)
    (st : Transfer * Downloader * World) (e : Event) : Transfer * Downloader * World :=
  let '(t, d, w) := st in
  match e with
  | Data chunk =>
      if flowing t
      then let '(t', w') := onData d w imageUrl t chunk in (t', d, w')
      else st
  | End =>
      if flowing t
      then
        let '(o, d', w') :=
          onEnd d w imageUrl localPath (downloadedData t) (downloadedSize t) in
        (settle o {| downloadedData := downloadedData t;
                     downloadedSize := downloadedSize t;
                     flowing := false; promise := promise t |}, d', w')
      else st
  | RequestError msg =>
      (settle (Rejected (NetworkError msg)) t, bump_failed d, w)
  | RequestTimeout =>
      (settle (Rejected DownloadTimeout) t, bump_failed d, destroy w imageUrl)
  end.

(** The request once [protocol.get] has returned: the response callback,
    if a response arrives, and the events.  The result is the promise at
    the end: [None] when nothing has settled it. *)
Definition onResponse (d : Downloader) (w : World) (imageUrl localPath : string)
    (resp : Response) : option Outcome * Downloader * World :=
  let idle := {| downloadedData := []; downloadedSize := 0;
                 flowing := false; promise := None |} in
  let '(t, w1, events) :=
    match resp with
    | NoResponse events => (idle, w, events)
    | Reply statusCode contentLength events =>
        if negb (statusCode =? 200)
        then (settle (Rejected (HttpStatus statusCode)) idle, w, events)
        else
          match declaredTooLarge (maxSize d) contentLength with
          | Some n => (settle (Rejected (TooLarge n)) idle, destroy w imageUrl, events)
          | None =>
              ({| downloadedData := []; downloadedSize := 0;
                  flowing := true; promise := None |}, w, events)
          end
    end in
  let '(t', d', w') := foldl (deliver imageUrl localPath) (t, d, w1) events in
  (promise t', d', w').

(** [downloadImage(imageUrl, baseUrl)] against a network that would
    answer [resp]: what the promise settles with ([None]: it stays
    pending), the downloader and the world once the events of the request
    have been delivered.  The events of one request are delivered before
    the next call on the downloader is made. *)
Definition downloadImage (d : Downloader) (w : World) (imageUrl baseUrl : string)
    (resp : Response) : option Outcome * Downloader * World :=
  let d := bump_total d in
  match JsMap.get (urlToPath d) imageUrl with
  | Some p =>
      (Some (Resolved {| url := imageUrl; localPath := p;
                         hash := JsMap.get (urlToHash d) imageUrl;
                         duplicate := true; cached := true;
                         duplicateOf := None; size := None |}),
       bump_duplicates d, w)
  | None =>
      match parseUrl imageUrl with
      | None => (Some (Rejected InvalidUrl), bump_failed d, w)
      | Some url =>
          let localPath := getLocalPathFromUrl d imageUrl baseUrl in
          let localDir := path_dirname localPath in
          let w := ensureDir w localDir in
          if bool_decide (protocol url = "https:") || bool_decide (protocol url = "http:")
          then onResponse d (httpGet w imageUrl) imageUrl localPath resp
          else (Some (Rejected (InvalidProtocol (protocol url))), bump_failed d, w)
      end
  end.

(** An [img] entry of a scraped page.  [localPath], [hash] and
    [duplicate] are absent until [updatePagesWithLocalPaths] adds them;
    the remaining attributes ([alt], [title], ...) are carried along
    unchanged and are left out. *)
Record Image := {
  src : option string;
  img_localPath : option string;
  img_hash : option string;
  img_duplicate : option bool
}.

(** A scraped page; [images] is [None] unless it is an array. *)
Record Page := {
  images : option (list Image)
}.

(** [Set.prototype.add] on an insertion-ordered set. *)
Definition set_add (s : list string) (u : string) : list string :=
  if bool_decide (u ∈ s) then s else (s ++ [u])%list.

(** The [uniqueImageUrls] set built by [downloadAllImages]. *)
Definition uniqueImageUrls (pages : list Page) : list string :=
  foldl (fun acc page =>
           match images page with
           | Some imgs =>
               foldl (fun acc img =>
                        if truthy_str (src img)
                        then set_add acc (default "" (src img))
                        else acc) acc imgs
           | None => acc
           end) [] pages.

(** The object returned by [downloadAllImages]. *)
Record BatchResult := {
  res_success : list ImageResult;
  res_failed : list (string * DownloadError);
  res_duplicates : list ImageResult;
  res_statistics : Stats
}.

(** The [for (const imageUrl of uniqueImageUrls)] loop, the network
    answering [net imageUrl].  [await this.downloadImage(...)] resumes when
    the promise settles; on a promise that stays pending the loop, and with
    it [downloadAllImages], never returns ([None]).  The [onProgress]
    callback and the pause between downloads are left out. *)
Fixpoint downloadLoop (net : string -> Response) (baseUrl : string)
    (urls : list string) (acc : BatchResult) (d : Downloader) (w : World)
  : option BatchResult * Downloader * World :=
  match urls with
  | [] => (Some acc, d, w)
  | imageUrl :: rest =>
      let '(out, d', w') := downloadImage d w imageUrl baseUrl (net imageUrl) in
      match out with
      | None => (None, d', w')
      | Some (Resolved result) =>
          let acc' :=
            if duplicate result
            then {| res_success := res_success acc;
                    res_failed := res_failed acc;
                    res_duplicates := (res_duplicates acc ++ [result])%list;
                    res_statistics := res_statistics acc |}
            else {| res_success := (res_success acc ++ [result])%list;
                    res_failed := res_failed acc;
                    res_duplicates := res_duplicates acc;
                    res_statistics := res_statistics acc |} in
          downloadLoop net baseUrl rest acc' d' w'
      | Some (Rejected error) =>
          let acc' :=
            {| res_success := res_success acc;
               res_failed := (res_failed acc ++ [(imageUrl, error)])%list;
               res_duplicates := res_duplicates acc;
               res_statistics := res_statistics acc |} in
          downloadLoop net baseUrl rest acc' d' w'
      end
  end.

(** [downloadAllImages(pages, baseUrl)]; [None] when it never returns. *)
Definition downloadAllImages (net : string -> Response) (d : Downloader) (w : World)
    (pages : list Page) (baseUrl : string) : option BatchResult * Downloader * World :=
  let results := {| res_success := []; res_failed := []; res_duplicates := [];
                    res_statistics := stats d |} in
  let '(results, d', w') :=
    downloadLoop net baseUrl (uniqueImageUrls pages) results d w in
  ((fun results =>
      {| res_success := res_success results;
         res_failed := res_failed results;
         res_duplicates := res_duplicates results;
         res_statistics := stats d' |}) <$> results, d', w').

(** [hashToPath.get(urlToHash.get(u)) !== urlToPath.get(u)] *)
Definition pathDiffers (d : Downloader) (hash : option string) (localPath : option string)
  : bool :=
  negb (bool_decide ((hash ≫= JsMap.get (hashToPath d)) = localPath)).

(** The callback [updatePagesWithLocalPaths] maps over a page's images. *)
Definition updateImage (d : Downloader) (img : Image) : Image :=
  match src img ≫= JsMap.get (urlToPath d) with
  | Some p =>
      let h := src img ≫= JsMap.get (urlToHash d) in
      {| src := src img;
         img_localPath := Some p;
         img_hash := h;
         img_duplicate := Some (pathDiffers d h (Some p)) |}
  | None => img
  end.

(** [updatePagesWithLocalPaths(pages)] *)
Definition updatePagesWithLocalPaths (d : Downloader) (pages : list Page) : list Page :=
  map (fun page =>
         match images page with
         | Some imgs => {| images := Some (map (updateImage d) imgs) |}
         | None => page
         end) pages.

(** An entry of the manifest's [images] array. *)
Record ManifestImage := {
  m_url : string;
  m_localPath : string;
  m_hash : option string;
  m_duplicate : bool;
  m_originalFile : option string;
  m_fileName : string;
  m_directory : string
}.

(** An entry of the manifest's [hash_map] array. *)
Record ManifestHash := {
  h_hash : string;
  h_localPath : string;
  h_fileName : string
}.

Record Manifest := {
  base_output_dir : string;
  statistics : Stats;
  manifest_images : list ManifestImage;
  hash_map : list ManifestHash
}.

Definition manifestImage (d : Downloader) (entry : string * string) : ManifestImage :=
  let '(url, localPath) := entry in
  let hash := JsMap.get (urlToHash d) url in
  let isDuplicate := pathDiffers d hash (Some localPath) in
  {| m_url := url;
     m_localPath := localPath;
     m_hash := hash;
     m_duplicate := isDuplicate;
     m_originalFile := if isDuplicate then hash ≫= JsMap.get (hashToPath d) else None;
     m_fileName := path_basename localPath;
     m_directory := path_dirname localPath |}.

(** The object built by [generateManifest] (its time stamp and its
    serialization to [outputPath] are left out). *)
Definition generateManifest (d : Downloader) : Manifest :=
  {| base_output_dir := baseOutputDir d;
     statistics := stats d;
     manifest_images := map (manifestImage d) (JsMap.entries (urlToPath d));
     hash_map := map (fun '(hash, localPath) =>
                        {| h_hash := hash; h_localPath := localPath;
                           h_fileName := path_basename localPath |})
                     (JsMap.entries (hashToPath d)) |}.

(** ** Successful transfers *)

(** [protocol.get] accepts the URL: it parses and is [http:] or [https:]. *)
Definition requestable (imageUrl : string) : bool :=
  match parseUrl imageUrl with
  | Some url => bool_decide (protocol url = "https:") || bool_decide (protocol url = "http:")
  | None => false
  end.




Definition isRequestEvent (e : Event) : bool :=
  match e with
  | RequestError _ | RequestTimeout => true
  | _ => false
  end.


(** ** Jobs: sequences of downloads on one downloader *)

(** One call of [downloadImage]: the URL, the base URL and what the
    network delivers if it is asked. *)
Record Call := {
  call_url : string;
  call_base : string;
  call_response : Response
}.

Definition step (st : Downloader * World) (c : Call) : Downloader * World :=
  let '(_, d, w) :=
    downloadImage st.1 st.2 (call_url c) (call_base c) (call_response c) in
  (d, w).

Definition run (st : Downloader * World) (calls : list Call) : Downloader * World :=
  foldl step st calls.

(** A fresh job: a new downloader, nothing written or requested yet. *)
Definition fresh (c : RawConfig) (existingDirs : list string) : Downloader * World :=
  (new c, {| written := []; dirs := existingDirs; requested := []; destroyed := [] |}).

End WithNode.

End Downloader.

(** * Facts about insertion-ordered maps *)

Module JsMapFacts.
Import JsMap.

Section Facts.
Context {K V : Type} `{EqDecision K}.
Implicit Types (m : JsMap.t K V) (k : K) (v : V).

Lemma get_set_eq m k v : get (set m k v) k = Some v.
Proof.
  induction m as [|[k' v'] m IH]; simpl.
  - by rewrite decide_True.
  - destruct (decide (k = k')) as [->|Hne]; simpl.
    + by rewrite decide_True.
    + by rewrite decide_False.
Qed.

Lemma get_set_ne m k k' v : k ≠ k' -> get (set m k v) k' = get m k'.
Proof.
  intros Hne. induction m as [|[k0 v0] m IH]; simpl.
  - by rewrite decide_False.
  - destruct (decide (k = k0)) as [->|Hk]; simpl.
    + by rewrite !decide_False.
    + by rewrite IH.
Qed.

Lemma get_set m k k' v :
  get (set m k v) k' = if decide (k = k') then Some v else get m k'.
Proof.
  destruct (decide (k = k')) as [->|Hne].
  - apply get_set_eq.
  - by apply get_set_ne.
Qed.

Lemma has_true m k : has m k = true <-> is_Some (get m k).
Proof.
  unfold has. destruct (get m k) as [v|]; split; intros H; eauto.
  - discriminate.
  - by destruct H.
Qed.

Lemma has_false m k : has m k = false <-> get m k = None.
Proof. unfold has. by destruct (get m k). Qed.

Lemma wf_empty : wf (@empty K V).
Proof. constructor. Qed.

Lemma set_keys_in m k v k0 : k0 ∈ (set m k v).*1 -> k0 = k \/ k0 ∈ m.*1.
Proof.
  induction m as [|[k' v'] m IH]; simpl.
  - rewrite list_elem_of_singleton. auto.
  - destruct (decide (k = k')) as [->|Hne]; simpl;
      rewrite !elem_of_cons; intros [->|Hin]; auto.
    destruct (IH Hin); auto.
Qed.

Lemma wf_set m k v : wf m -> wf (set m k v).
Proof.
  unfold wf. induction m as [|[k' v'] m IH]; simpl; intros Hnd.
  - apply NoDup_singleton.
  - apply NoDup_cons in Hnd as [Hnotin Hnd].
    destruct (decide (k = k')) as [->|Hne]; simpl; apply NoDup_cons.
    + done.
    + split; [|by apply IH].
      intros Hin. apply set_keys_in in Hin as [->|Hin]; done.
Qed.

Lemma get_entry m k v : wf m -> (k, v) ∈ entries m -> get m k = Some v.
Proof.
  unfold wf, entries. induction m as [|[k' v'] m IH]; simpl.
  - intros _ Hin. by apply not_elem_of_nil in Hin.
  - intros Hnd Hin. apply NoDup_cons in Hnd as [Hnotin Hnd].
    apply elem_of_cons in Hin as [Heq|Hin].
    + inversion Heq; subst. by rewrite decide_True.
    + destruct (decide (k = k')) as [->|Hne]; [|by apply IH].
      exfalso. apply Hnotin. apply list_elem_of_fmap. by exists (k', v).
Qed.

Lemma entry_get m k v : get m k = Some v -> (k, v) ∈ entries m.
Proof.
  unfold entries. induction m as [|[k' v'] m IH]; simpl; [done|].
  destruct (decide (k = k')) as [->|Hne].
  - intros [= ->]. apply elem_of_cons. by left.
  - intros Hg. apply elem_of_cons. right. by apply IH.
Qed.

End Facts.

End JsMapFacts.

(** * A URL parser for the worked examples *)

Module Examples.

(** Everything from the first [/] on, up to a [?] or [#]. *)
Fixpoint pathOnly (s : string) : string :=
  match s with
  | EmptyString => EmptyString
  | String c s' =>
      if (Ascii.eqb c "?" || Ascii.eqb c "#")%char then EmptyString
      else String c (pathOnly s')
  end.

Fixpoint fromSlash (s : string) : string :=
  match s with
  | EmptyString => "/"
  | String c s' => if Ascii.eqb c "/" then pathOnly s else fromSlash s'
  end.

Fixpoint hostOnly (s : string) : string :=
  match s with
  | EmptyString => EmptyString
  | String c s' =>
      if (Ascii.eqb c "/" || Ascii.eqb c "?" || Ascii.eqb c "#")%char then EmptyString
      else String c (hostOnly s')
  end.

(** [new URL(s)] for absolute [http(s)://host/path] URLs. *)
Definition parse (s : string) : option Downloader.ParsedUrl :=
  if startsWith s "https://" then
    let rest := String.substring 8 (String.length s - 8) s in
    Some {| Downloader.protocol := "https:";
            Downloader.hostname := hostOnly rest;
            Downloader.pathname := fromSlash rest |}
  else if startsWith s "http://" then
    let rest := String.substring 7 (String.length s - 7) s in
    Some {| Downloader.protocol := "http:";
            Downloader.hostname := hostOnly rest;
            Downloader.pathname := fromSlash rest |}
  else None.

Definition pathname (s : string) : option string :=
  Downloader.pathname <$> parse s.

(** Stand-ins for Node's [path] and [crypto] modules in the worked
    examples: paths are joined with [/]; the digest is the byte string
    itself, so that in the examples equal digests mean equal contents. *)
Definition dropLast (parts : list string) : list string :=
  take (length parts - 1) parts.

Definition exampleNode : Downloader.NodeApi :=
  {| Downloader.parseUrl := parse;
     Downloader.md5hex := string_of_list_byte;
     Downloader.path_join := fun parts => join "/" parts;
     Downloader.path_dirname := fun p => join "/" (dropLast (split "/" p));
     Downloader.path_basename := fun p => default "" (last (split "/" p)) |}.

End Examples.

(** * Properties of the level classifier and the frontier *)

Module NavFacts.
Import Nav Scraper.

(** The constructor called without options. *)
Definition defaults : RawConfig :=
  {| raw_maxLevel := None; raw_levelLimits := None; raw_legalKeywords := None |}.

(** ** Legal pages *)

Lemma isLegalPage_keyword cr u k :
  In k (legalKeywords (config cr)) ->
  includes (toLowerCase u) k = true ->
  isLegalPage cr u = true.
Proof.
  intros Hin Hinc. unfold isLegalPage. apply existsb_exists. eauto.
Qed.

(** Lower-casing is idempotent, code unit by code unit. *)
Lemma lower_ascii_idempotent c : lower_ascii (lower_ascii c) = lower_ascii c.
Proof. by destruct c as [[] [] [] [] [] [] [] []]. Qed.

Lemma toLowerCase_idempotent s : toLowerCase (toLowerCase s) = toLowerCase s.
Proof.
  induction s as [|c s IH]; simpl; [done|].
  by rewrite lower_ascii_idempotent, IH.
Qed.

(** What occurs in a lower-case string is in lower case itself. *)
Lemma startsWith_lower s k :
  startsWith s k = true -> toLowerCase s = s -> toLowerCase k = k.
Proof.
  revert s. induction k as [|a k IH]; intros s; [done|].
  destruct s as [|b s]; simpl; [done|].
  destruct (Ascii.eqb a b) eqn:Hab; [|done].
  apply Ascii.eqb_eq in Hab as ->.
  intros Hs [= Hb Hlow]. rewrite Hb. f_equal. by apply (IH s).
Qed.

Lemma includes_lower s k :
  includes s k = true -> toLowerCase s = s -> toLowerCase k = k.
Proof.
  induction s as [|b s IH]; simpl.
  - rewrite orb_false_r. intros Hs _. by apply (startsWith_lower EmptyString).
  - intros [Hs|Hi]%orb_true_iff Hlow.
    + by apply (startsWith_lower (String b s)).
    + injection Hlow as _ Hlow. by apply IH.
Qed.

(** The URL is lower-cased, the keyword is taken as configured: a keyword
    with a capital letter occurs in no lower-cased URL. *)
Lemma capital_keyword_never_matches u k :
  toLowerCase k <> k -> includes (toLowerCase u) k = false.
Proof.
  intros Hk. destruct (includes (toLowerCase u) k) eqn:Hi; [|done].
  exfalso. apply Hk.
  exact (includes_lower _ _ Hi (toLowerCase_idempotent u)).
Qed.

(** A keyword configured in lower case does match case-insensitively. *)
Lemma lowercase_keyword_level0 cr u parent k :
  In k (legalKeywords (config cr)) ->
  toLowerCase k = k ->
  includes (toLowerCase u) (toLowerCase k) = true ->
  determineLevel cr u parent = 0.
Proof.
  intros Hin Hlow Hinc. rewrite Hlow in Hinc.
  unfold determineLevel. by rewrite (isLegalPage_keyword cr u k).
Qed.

(** C6 fails on the code.  [isLegalPage] matches case-insensitively by
    lower-casing the URL, but compares it with the keyword as configured.
    With the keywords [Privacy] and [AGB] the URL [.../Privacy], which
    contains the first keyword letter for letter, is not a legal page: it
    is classified as level 1 under no parent and as level 2 under a level-1
    parent, and so are [.../privacy] and [.../agb].  With the same two
    keywords written in lower case all of them are level 0. *)
Theorem legal_keyword_case_lost :
  let options words := {| raw_maxLevel := None; raw_levelLimits := None;
                          raw_legalKeywords := Some words |} in
  let cr := new (options ["Privacy"; "AGB"]) in
  let home := "https://example.com" in
  let cr1 := (registerUrl cr home None).2 in
  let lower := (registerUrl (new (options ["privacy"; "agb"])) home None).2 in
  isLegalPage cr "https://example.com/Privacy" = false /\
  determineLevel cr "https://example.com/Privacy" None = 1 /\
  determineLevel cr "https://example.com/privacy" None = 1 /\
  determineLevel cr1 "https://example.com/Privacy" (Some home) = 2 /\
  determineLevel cr1 "https://example.com/agb" (Some home) = 2 /\
  determineLevel lower "https://example.com/Privacy" (Some home) = 0 /\
  determineLevel lower "https://example.com/agb" (Some home) = 0.
Proof. vm_compute. repeat split. Qed.

(** ** The frontier order *)

Section StableSort.
Context {A : Type} (cmp : A -> A -> Z).

Lemma insertBy_Permutation x l : insertBy cmp x l ≡ₚ x :: l.
Proof.
  induction l as [|y l IH]; simpl; [done|].
  destruct (cmp x y <=? 0); [done|].
  rewrite IH. apply Permutation_swap.
Qed.

Lemma sortBy_Permutation l : sortBy cmp l ≡ₚ l.
Proof.
  induction l as [|x l IH]; simpl; [done|].
  rewrite insertBy_Permutation. by rewrite IH.
Qed.

(** Stability: elements that compare equal keep their order. *)
Lemma insertBy_filter (P : A -> bool) x l :
  (forall y, P x = true -> P y = true -> cmp x y <= 0) ->
  List.filter P (insertBy cmp x l) = List.filter P (x :: l).
Proof.
  intros Heq. induction l as [|y l IH]; [done|].
  cbn [insertBy]. destruct (cmp x y <=? 0) eqn:Hc; [done|].
  cbn [List.filter] in *. rewrite IH.
  destruct (P x) eqn:Hx, (P y) eqn:Hy; try done.
  apply Z.leb_gt in Hc. specialize (Heq y eq_refl Hy). lia.
Qed.

Lemma sortBy_stable (P : A -> bool) l :
  (forall x y, P x = true -> P y = true -> cmp x y <= 0) ->
  List.filter P (sortBy cmp l) = List.filter P l.
Proof.
  intros Heq. induction l as [|x l IH]; [done|].
  cbn [sortBy foldr]. fold (sortBy cmp l).
  rewrite insertBy_filter by eauto.
  cbn [List.filter]. by rewrite IH.
Qed.

Lemma StronglySorted_weaken (R S : A -> A -> Prop) l :
  (forall a b, R a b -> S a b) -> StronglySorted R l -> StronglySorted S l.
Proof.
  intros HRS. induction 1 as [|x l Hs IH Hall]; constructor; [done|].
  eapply Forall_impl; [exact Hall|]. auto.
Qed.

Hypothesis cmp_total : forall x y, cmp x y > 0 -> cmp y x <= 0.
Hypothesis cmp_trans : forall x y z, cmp x y <= 0 -> cmp y z <= 0 -> cmp x z <= 0.

Lemma insertBy_sorted x l :
  StronglySorted (fun a b => cmp a b <= 0) l ->
  StronglySorted (fun a b => cmp a b <= 0) (insertBy cmp x l).
Proof.
  induction 1 as [|y l Hs IH Hall]; simpl.
  - repeat constructor.
  - destruct (cmp x y <=? 0) eqn:Hc.
    + apply Z.leb_le in Hc. constructor; [by constructor|].
      constructor; [done|]. eapply Forall_impl; [exact Hall|].
      intros z Hz. by eapply cmp_trans.
    + apply Z.leb_gt in Hc. constructor; [done|].
      rewrite insertBy_Permutation. constructor; [|done].
      apply cmp_total. lia.
Qed.

Lemma sortBy_sorted l : StronglySorted (fun a b => cmp a b <= 0) (sortBy cmp l).
Proof.
  induction l as [|x l IH]; simpl; [constructor|]. by apply insertBy_sorted.
Qed.

End StableSort.

(** The level the comparator works with: the registered level, 999 when
    the URL is not registered or registered with level 0. *)
Definition sortLevel (cr : Crawler) (a : WorkItem) : Z :=
  num_or (urlLevels cr !! url a) 999.

Lemma num_or_nonzero x d : d <> 0 -> num_or x d <> 0.
Proof.
  intros Hd. unfold num_or. destruct x as [v|]; [|done].
  destruct (v =? 0) eqn:Hv; [done|]. by apply Z.eqb_neq.
Qed.

(** The comparator orders by [sortLevel], then navigation links first;
    its two "legal pages first" branches never fire. *)
Lemma compareItems_spec cr a b :
  compareItems cr a b =
    if negb (sortLevel cr a =? sortLevel cr b) then sortLevel cr a - sortLevel cr b
    else if isNavigation a && negb (isNavigation b) then -1
    else if isNavigation b && negb (isNavigation a) then 1
    else 0.
Proof.
  unfold compareItems. fold (sortLevel cr a) (sortLevel cr b).
  assert (Ha : (sortLevel cr a =? 0) = false)
    by (apply Z.eqb_neq, num_or_nonzero; lia).
  assert (Hb : (sortLevel cr b =? 0) = false)
    by (apply Z.eqb_neq, num_or_nonzero; lia).
  by rewrite Ha, Hb.
Qed.

Lemma compareItems_le cr a b :
  compareItems cr a b <= 0 <->
  sortLevel cr a < sortLevel cr b \/
  (sortLevel cr a = sortLevel cr b /\ (isNavigation b = true -> isNavigation a = true)).
Proof.
  rewrite compareItems_spec.
  destruct (sortLevel cr a =? sortLevel cr b) eqn:He; simpl.
  - apply Z.eqb_eq in He.
    destruct (isNavigation a), (isNavigation b); simpl; split; intros Hle;
      try lia; try (right; split; [done|]; done);
      destruct Hle as [?|[_ Hn]]; try lia; by specialize (Hn eq_refl).
  - apply Z.eqb_neq in He. split; [intros; left; lia|intros [?|[? _]]; lia].
Qed.

(** What [prioritizeUrls] does: a stable rearrangement of its argument,
    ascending in [sortLevel], navigation links first within a level. *)
Lemma prioritizeUrls_Permutation cr urls : prioritizeUrls cr urls ≡ₚ urls.
Proof. apply sortBy_Permutation. Qed.

Lemma prioritizeUrls_sorted cr urls :
  StronglySorted
    (fun a b => sortLevel cr a < sortLevel cr b \/
                (sortLevel cr a = sortLevel cr b /\
                 (isNavigation b = true -> isNavigation a = true)))
    (prioritizeUrls cr urls).
Proof.
  eapply StronglySorted_weaken; last apply (sortBy_sorted (compareItems cr)).
  - intros a b Hle. by apply compareItems_le.
  - intros x y Hgt. apply compareItems_le.
    assert (Hn : ~ compareItems cr x y <= 0) by lia.
    rewrite compareItems_le in Hn.
    destruct (decide (sortLevel cr y < sortLevel cr x)); [by left|right].
    destruct (decide (sortLevel cr x = sortLevel cr y)) as [Heq|Hne].
    + split; [done|]. intros Hx.
      destruct (isNavigation y) eqn:Hy; [done|].
      exfalso. apply Hn. right. split; [done|]. discriminate.
    + exfalso. apply Hn. left. lia.
  - intros x y z. rewrite !compareItems_le.
    intros [?|[? Hxy]] [?|[? Hyz]]; try (left; lia).
    right. split; [lia|]. auto.
Qed.

Lemma prioritizeUrls_stable cr urls lvl nav :
  let same a := (sortLevel cr a =? lvl) && bool_decide (isNavigation a = nav) in
  List.filter same (prioritizeUrls cr urls) = List.filter same urls.
Proof.
  intros same. apply sortBy_stable. intros x y Hx Hy.
  apply andb_true_iff in Hx as [Hx Hnx], Hy as [Hy Hny].
  apply Z.eqb_eq in Hx, Hy. apply bool_decide_eq_true in Hnx, Hny.
  apply compareItems_le. right. split; congruence.
Qed.

(** The pages of the worked examples. *)
Definition root : string := "https://example.com".
Definition impressum : string := "https://example.com/impressum".
Definition products : string := "https://example.com/products".

Definition legalItem : WorkItem :=
  {| url := impressum; parentUrl := Some root; level := 0; isNavigation := false |}.
Definition productsItem : WorkItem :=
  {| url := products; parentUrl := Some root; level := 2; isNavigation := true |}.

(** C1 fails on the code.  (1) With the legal page registered at level 0 and
    an ordinary page registered at level 2, [prioritizeUrls] puts the legal
    page last: [urlLevels.get(url) || 999] reads the stored 0 as 999.
    (2) In a crawl the pending URLs are not registered yet, so after the
    seed page, whose navigation links to [products] and whose footer links
    to [impressum], the legal page is queued behind the products page and
    stays there. *)
Theorem prioritizeUrls_legal_not_first :
  let cr := runOps Examples.pathname (new defaults)
              [OpRegisterUrl root None;
               OpRegisterUrl products (Some root);
               OpRegisterUrl impressum (Some root)] in
  let s := iteration Examples.pathname [(products, true); (impressum, false)]
             (start defaults root) in
  (urlLevels cr !! impressum = Some 0 /\
   urlLevels cr !! products = Some 2 /\
   prioritizeUrls cr [legalItem; productsItem] = [productsItem; legalItem]) /\
  (pendingUrls s = [productsItem; legalItem] /\
   prioritizeUrls (navCrawler s) (pendingUrls s) = [productsItem; legalItem]).
Proof. vm_compute. repeat split. Qed.

(** ** Registration *)

(** C2, as stated, fails: [registerUrl] has no "already registered" test.
    Registered first as a seed (level 1), then again through a level-1
    parent, the URL is reclassified to level 2 and the level-2 counter is
    incremented. *)
Lemma registerUrl_not_idempotent_counterexample :
  let cr0 := (registerUrl (new defaults) root None).2 in
  let '(l1, cr1) := registerUrl cr0 products None in
  let '(l2, cr2) := registerUrl cr1 products (Some root) in
  l1 = 1 /\ urlLevels cr1 !! products = Some 1 /\
  l2 = 2 /\ urlLevels cr2 !! products = Some 2 /\
  levelCounts cr1 !! 2 = None /\ levelCounts cr2 !! 2 = Some 1.
Proof. vm_compute. repeat split. Qed.

Section Crawl.
Variable pathname : string -> option string.

(** In a crawl every registered URL has been visited. *)
Definition registered_visited (s : Scraper) : Prop :=
  forall u, is_Some (urlLevels (navCrawler s) !! u) -> u ∈ visitedUrls s.

Lemma processLink_levels pageUrl s link s' :
  processLink pathname pageUrl s link = Some s' ->
  urlLevels (navCrawler s') = urlLevels (navCrawler s) /\
  levelCounts (navCrawler s') = levelCounts (navCrawler s) /\
  visitedUrls s' = visitedUrls s.
Proof.
  unfold processLink. destruct link as [absoluteUrl isNav].
  destruct (_ && _); [|by intros [= <-]].
  destruct (_ =? 3); [|by intros [= <-]].
  destruct (shouldCrawlLevel3 _ _ _) as [[|]|]; simpl; [| by intros [= <-] | done].
  unfold registerLevel3Page.
  destruct (getCategory _ _); simpl; [by intros [= <-] | done].
Qed.

Lemma processLinks_levels pageUrl links s :
  urlLevels (navCrawler (processLinks pathname pageUrl s links))
    = urlLevels (navCrawler s) /\
  levelCounts (navCrawler (processLinks pathname pageUrl s links))
    = levelCounts (navCrawler s) /\
  visitedUrls (processLinks pathname pageUrl s links) = visitedUrls s.
Proof.
  revert s. induction links as [|link links IH]; intros s; simpl; [done|].
  destruct (processLink _ _ _ _) as [s1|] eqn:Hs1; [|done].
  apply processLink_levels in Hs1 as (Hl & Hc & Hv).
  destruct (IH s1) as (Hl' & Hc' & Hv'). repeat split; congruence.
Qed.

Lemma dequeue_state s item s1 :
  dequeue s = Some (item, s1) ->
  navCrawler s1 = navCrawler s /\ visitedUrls s1 = visitedUrls s.
Proof.
  unfold dequeue. destruct (prioritizeUrls _ _); [done|]. by intros [= <- <-].
Qed.

Lemma visit_registered_visited s item :
  registered_visited s -> registered_visited (visit s item).2.
Proof.
  intros Hinv. unfold visit. case_bool_decide as Hv; [done|].
  intros u. simpl. rewrite lookup_insert. case_decide as Hu.
  - intros _. set_solver.
  - intros Hsome. apply Hinv in Hsome. set_solver.
Qed.

Lemma iteration_registered_visited links s :
  registered_visited s -> registered_visited (iteration pathname links s).
Proof.
  intros Hinv. unfold iteration.
  destruct (dequeue s) as [[item s1]|] eqn:Hd; [|done].
  apply dequeue_state in Hd as [Hcr Hvis].
  assert (Hinv1 : registered_visited s1).
  { intros u. rewrite Hcr, Hvis. apply Hinv. }
  pose proof (visit_registered_visited s1 item Hinv1) as Hinv2.
  destruct (visit s1 item) as [[lvl|] s2]; simpl in Hinv2; [|done].
  intros u. destruct (processLinks_levels (url item) links s2) as (-> & _ & ->).
  apply Hinv2.
Qed.

Lemma reachable_registered_visited c baseUrl s :
  reachable pathname c baseUrl s -> registered_visited s.
Proof.
  induction 1 as [|s links _ IH].
  - intros u [l Hl]. simpl in Hl. by rewrite lookup_empty in Hl.
  - by apply iteration_registered_visited.
Qed.

Lemma visit_level_kept s item u L :
  u ∈ visitedUrls s ->
  urlLevels (navCrawler s) !! u = Some L ->
  urlLevels (navCrawler (visit s item).2) !! u = Some L.
Proof.
  intros Hu HL. unfold visit. case_bool_decide as Hv; [done|].
  simpl. rewrite lookup_insert_ne; [done|].
  intros Heq. apply Hv. by rewrite Heq.
Qed.

(** C2 (amended): in the crawl loop [registerUrl] is reached only for URLs
    that are not in [visitedUrls].  So in every state of a crawl where [u]
    is registered with level [L], dequeuing [u] again, under any parent and
    at any depth, skips the registration (the scraper state, hence [u]'s
    level and every per-level counter, is unchanged), and [u] is still
    registered with level [L] after any further iteration of the loop.
    [registerUrl] itself always classifies anew: it returns
    [determineLevel(u, p)], stores it and counts it. *)
Theorem registered_level_stable c baseUrl s u L :
  reachable pathname c baseUrl s ->
  urlLevels (navCrawler s) !! u = Some L ->
  (forall item, url item = u -> visit s item = (None, s)) /\
  (forall links,
     urlLevels (navCrawler (iteration pathname links s)) !! u = Some L) /\
  (forall cr p,
     let l := determineLevel cr u p in
     (registerUrl cr u p).1 = l /\
     urlLevels (registerUrl cr u p).2 !! u = Some l /\
     levelCounts (registerUrl cr u p).2 !! l
       = Some (num_or (levelCounts cr !! l) 0 + 1)).
Proof.
  intros Hreach HL.
  pose proof (reachable_registered_visited _ _ _ Hreach) as Hinv.
  assert (Hu : u ∈ visitedUrls s) by (apply Hinv; eauto).
  split; [|split].
  - intros item <-. unfold visit. by rewrite bool_decide_eq_true_2.
  - intros links. unfold iteration.
    destruct (dequeue s) as [[item s1]|] eqn:Hd; [|done].
    apply dequeue_state in Hd as [Hcr Hvis].
    assert (HL2 : urlLevels (navCrawler (visit s1 item).2) !! u = Some L).
    { apply visit_level_kept; [by rewrite Hvis | by rewrite Hcr]. }
    destruct (visit s1 item) as [[lvl|] s2]; simpl in HL2; [|done].
    by destruct (processLinks_levels (url item) links s2) as (-> & _ & _).
  - intros cr p l. simpl. by rewrite !lookup_insert_eq.
Qed.

End Crawl.

Lemma registered_level_stable_witness :
  let s := iteration Examples.pathname [(products, true); (impressum, false)]
             (start defaults root) in
  urlLevels (navCrawler s) !! root = Some 1 /\
  (forall item, url item = root -> visit s item = (None, s)) /\
  (forall links,
     urlLevels (navCrawler (iteration Examples.pathname links s)) !! root = Some 1) /\
  (forall cr p,
     let l := determineLevel cr root p in
     (registerUrl cr root p).1 = l /\
     urlLevels (registerUrl cr root p).2 !! root = Some l /\
     levelCounts (registerUrl cr root p).2 !! l
       = Some (num_or (levelCounts cr !! l) 0 + 1)).
Proof.
  intros s.
  assert (Hl : urlLevels (navCrawler s) !! root = Some 1) by (vm_compute; reflexivity).
  split; [exact Hl|].
  apply (registered_level_stable Examples.pathname defaults root s root 1);
    [|exact Hl].
  apply reach_iter, reach_start.
Defined.

(** ** The per-category sample at level 3 *)

(** The length of a category's bucket, [categoryPages.get(category).length]
    with a missing bucket counted as empty. *)
Definition bucketSize (cr : Crawler) (category : string) : Z :=
  Z.of_nat (length (default [] (categoryPages cr !! category))).

(** C5, as stated, fails: the bucket test reads [levelLimits[3]], whatever
    [maxLevel] is.  With [maxLevel = 4] and limits [{3: 2, 4: 1}] two guarded
    registrations fill the bucket of [en/products] with two pages, more than
    [levelLimits[maxLevel] = 1]. *)
Lemma bucket_maxLevel_counterexample :
  let c := {| raw_maxLevel := Some 4;
              raw_levelLimits :=
                Some (<[1 := -1]> (<[2 := -1]> (<[3 := 2]> (<[4 := 1]> ∅))));
              raw_legalKeywords := None |} in
  let cr := runOps Examples.pathname (new c)
              [OpSampleLevel3 "https://example.com/en/products/a";
               OpSampleLevel3 "https://example.com/en/products/b"] in
  levelLimits (config cr) !! maxLevel (config cr) = Some 1 /\
  categoryPages cr !! "en/products"
    = Some ["https://example.com/en/products/a";
            "https://example.com/en/products/b"] /\
  bucketSize cr "en/products" = 2 /\
  ~ bucketSize cr "en/products" <= 1.
Proof. vm_compute. repeat split; auto. Qed.

Section Buckets.
Variable pathname : string -> option string.

Definition buckets_bounded (n : Z) (cr : Crawler) : Prop :=
  forall category, bucketSize cr category <= n.

Lemma registerUrl_config cr u p : config (registerUrl cr u p).2 = config cr.
Proof. done. Qed.

Lemma sampleLevel3_config cr u : config (sampleLevel3 pathname cr u) = config cr.
Proof.
  unfold sampleLevel3, registerLevel3Page.
  destruct (shouldCrawlLevel3 _ _ _) as [[|]|]; try done.
  by destruct (getCategory _ _).
Qed.

Lemma runOps_config cr ops : config (runOps pathname cr ops) = config cr.
Proof.
  unfold runOps. revert cr.
  induction ops as [|op ops IH]; intros cr; simpl; [done|].
  rewrite IH.
  destruct op; [apply registerUrl_config | apply sampleLevel3_config].
Qed.

(** A guarded registration keeps every bucket within a positive
    [levelLimits[3]]. *)
Lemma guarded_register_bounded n cr cr' u :
  levelLimits (config cr) !! 3 = Some n -> 1 <= n ->
  shouldCrawlLevel3 pathname cr u = Some true ->
  registerLevel3Page pathname cr u = Some cr' ->
  buckets_bounded n cr -> buckets_bounded n cr'.
Proof.
  intros Hlim Hn Hok Hreg Hinv category.
  unfold shouldCrawlLevel3, registerLevel3Page in *.
  destruct (getCategory pathname u) as [cat|]; simpl in *; [|done].
  injection Hok as Hok. injection Hreg as <-.
  rewrite Hlim in Hok. unfold num_or in Hok.
  destruct (n =? 0) eqn:Hn0; [apply Z.eqb_eq in Hn0; lia|].
  apply Z.ltb_lt in Hok.
  unfold bucketSize. simpl. rewrite lookup_insert. case_decide as Hc.
  - simpl. rewrite length_app. simpl. lia.
  - apply Hinv.
Qed.

Lemma applyOp_bounded n cr op :
  levelLimits (config cr) !! 3 = Some n -> 1 <= n ->
  buckets_bounded n cr -> buckets_bounded n (applyOp pathname cr op).
Proof.
  intros Hlim Hn Hinv. destruct op as [u p|u]; simpl.
  - exact Hinv.
  - unfold sampleLevel3.
    destruct (shouldCrawlLevel3 _ _ _) as [[|]|] eqn:Hok; try done.
    destruct (registerLevel3Page _ _ _) as [cr'|] eqn:Hreg; [|done].
    simpl. by eapply guarded_register_bounded.
Qed.

(** C5 (amended): the per-category cap belongs to level 3, not to
    [maxLevel].  When [levelLimits[3]] is a positive integer [n], then after
    any sequence of [registerUrl] calls and admission-guarded
    [shouldCrawlLevel3]/[registerLevel3Page] operations on a new crawler
    every category's bucket holds at most [n] URLs. *)
Theorem level3_bucket_bounded c ops n category :
  levelLimits (mkConfig c) !! 3 = Some n ->
  1 <= n ->
  bucketSize (runOps pathname (new c) ops) category <= n.
Proof.
  intros Hlim Hn.
  assert (Hgen : forall cr, config cr = mkConfig c -> buckets_bounded n cr ->
                            buckets_bounded n (runOps pathname cr ops)).
  { induction ops as [|op ops IH]; intros cr Hcfg Hinv; simpl; [done|].
    apply IH.
    - rewrite <- Hcfg. destruct op; [done | apply sampleLevel3_config].
    - apply applyOp_bounded; [by rewrite Hcfg | done | done]. }
  apply Hgen; [done|].
  intros cat. unfold bucketSize. simpl. rewrite lookup_empty. simpl. lia.
Qed.

(** The same bound in a crawl: [scrapePage] only registers a level-3 page
    behind [shouldCrawlLevel3]. *)
Lemma processLink_bounded n pageUrl s link s' :
  levelLimits (config (navCrawler s)) !! 3 = Some n -> 1 <= n ->
  processLink pathname pageUrl s link = Some s' ->
  buckets_bounded n (navCrawler s) ->
  config (navCrawler s') = config (navCrawler s) /\
  buckets_bounded n (navCrawler s').
Proof.
  intros Hlim Hn. unfold processLink. destruct link as [absoluteUrl isNav].
  destruct (_ && _); [|by intros [= <-]].
  destruct (_ =? 3); [|by intros [= <-]].
  destruct (shouldCrawlLevel3 _ _ _) as [[|]|] eqn:Hok; simpl;
    [| by intros [= <-] | done].
  destruct (registerLevel3Page _ _ _) as [cr'|] eqn:Hreg; simpl; [|done].
  intros [= <-] Hinv. simpl. split.
  - unfold registerLevel3Page in Hreg.
    destruct (getCategory _ _); simpl in Hreg; [|done]. by injection Hreg as <-.
  - by eapply guarded_register_bounded.
Qed.

Lemma processLinks_bounded n pageUrl links s :
  levelLimits (config (navCrawler s)) !! 3 = Some n -> 1 <= n ->
  buckets_bounded n (navCrawler s) ->
  config (navCrawler (processLinks pathname pageUrl s links)) = config (navCrawler s) /\
  buckets_bounded n (navCrawler (processLinks pathname pageUrl s links)).
Proof.
  intros Hlim Hn. revert s Hlim.
  induction links as [|link links IH]; intros s Hlim Hinv; simpl; [done|].
  destruct (processLink _ _ _ _) as [s1|] eqn:Hs1; [|done].
  eapply processLink_bounded in Hs1 as [Hcfg Hinv1]; [|done..].
  destruct (IH s1) as [Hcfg' Hinv']; [by rewrite Hcfg | done |].
  split; [congruence | done].
Qed.

Lemma crawl_bucket_bounded c baseUrl s n :
  levelLimits (mkConfig c) !! 3 = Some n -> 1 <= n ->
  reachable pathname c baseUrl s ->
  config (navCrawler s) = mkConfig c /\ buckets_bounded n (navCrawler s).
Proof.
  intros Hlim Hn. induction 1 as [|s links _ [Hcfg Hinv]].
  - split; [done|]. intros cat. unfold bucketSize. simpl.
    rewrite lookup_empty. simpl. lia.
  - unfold iteration.
    destruct (dequeue s) as [[item s1]|] eqn:Hd; [|done].
    apply dequeue_state in Hd as [Hcr Hvis].
    assert (H2 : config (navCrawler (visit s1 item).2) = mkConfig c /\
                 buckets_bounded n (navCrawler (visit s1 item).2)).
    { unfold visit. case_bool_decide; simpl; rewrite Hcr; done. }
    destruct (visit s1 item) as [[lvl|] s2]; simpl in H2; [|done].
    destruct H2 as [Hcfg2 Hinv2].
    destruct (processLinks_bounded n (url item) links s2) as [Hcfg3 Hinv3];
      [by rewrite Hcfg2 | done | done |].
    split; [congruence | done].
Qed.

End Buckets.

Lemma level3_bucket_bounded_witness :
  bucketSize
    (runOps Examples.pathname (new defaults)
       [OpRegisterUrl root None;
        OpSampleLevel3 "https://example.com/en/products/a";
        OpSampleLevel3 "https://example.com/en/products/b"])
    "en/products" <= 1.
Proof.
  apply (level3_bucket_bounded Examples.pathname defaults _ 1 "en/products").
  - reflexivity.
  - lia.
Defined.

End NavFacts.

(** * Properties of the downloader and its hash registry *)

Module DownloaderFacts.
Import Downloader.

(** The events a response carries. *)
Definition responseEvents (resp : Response) : list Event :=
  match resp with
  | NoResponse events => events
  | Reply _ _ events => events
  end.

(** The response callback attaches the ['data'] and ['end'] handlers:
    status 200 and no declared length above [maxSize]. *)
Definition accepted (maxSize : Z) (resp : Response) : bool :=
  match resp with
  | NoResponse _ => false
  | Reply statusCode contentLength _ =>
      (statusCode =? 200) &&
      match declaredTooLarge maxSize contentLength with
      | Some _ => false
      | None => true
      end
  end.

(** [d'] is [d] but for a failure counter that may have grown. *)
Record same_but_failed (d d' : Downloader) : Prop := {
  sbf_baseOutputDir : baseOutputDir d' = baseOutputDir d;
  sbf_maxSize : maxSize d' = maxSize d;
  sbf_hashToPath : hashToPath d' = hashToPath d;
  sbf_urlToHash : urlToHash d' = urlToHash d;
  sbf_urlToPath : urlToPath d' = urlToPath d;
  sbf_total : total (stats d') = total (stats d);
  sbf_downloaded : downloaded (stats d') = downloaded (stats d);
  sbf_duplicates : duplicates (stats d') = duplicates (stats d);
  sbf_totalSize : totalSize (stats d') = totalSize (stats d);
  sbf_failed : failed (stats d) <= failed (stats d')
}.

(** The buffer holds no more bytes than were counted, and no more than
    a non-negative ceiling. *)
Definition within (m : Z) (data : bytes) (n : Z) : Prop :=
  Z.of_nat (length data) <= n /\ (0 <= m -> Z.of_nat (length data) <= m).

Section Registry.
Context `{NodeApi}.

(** What one [downloadImage] call can do to the registry and to the
    files on disk: nothing; register a duplicate of a known hash; or write
    a new file and register it. *)
Inductive effect (d : Downloader) (w : World) (u : string)
  : Downloader -> World -> Prop :=
| effect_none d' w' :
    hashToPath d' = hashToPath d ->
    urlToHash d' = urlToHash d ->
    urlToPath d' = urlToPath d ->
    written w' = written w ->
    effect d w u d' w'
| effect_duplicate d' w' data existingPath :
    JsMap.get (urlToPath d) u = None ->
    JsMap.get (hashToPath d) (md5hex data) = Some existingPath ->
    hashToPath d' = hashToPath d ->
    urlToHash d' = JsMap.set (urlToHash d) u (md5hex data) ->
    urlToPath d' = JsMap.set (urlToPath d) u existingPath ->
    written w' = written w ->
    effect d w u d' w'
| effect_new d' w' data localPath :
    JsMap.get (urlToPath d) u = None ->
    JsMap.get (hashToPath d) (md5hex data) = None ->
    hashToPath d' = JsMap.set (hashToPath d) (md5hex data) localPath ->
    urlToHash d' = JsMap.set (urlToHash d) u (md5hex data) ->
    urlToPath d' = JsMap.set (urlToPath d) u localPath ->
    written w' = (written w ++ [(localPath, data)])%list ->
    effect d w u d' w'.

(** What the events of one request do, from the state [t], [d], [w] in
    which the first of them finds the call: either the ['end'] handler
    does not run, and only the failure counter and the promise move; or it
    runs once, on the buffer [data] with the byte count [n], between two
    such stretches. *)
Inductive delivered (u localPath : string) (events : list Event)
    (t : Transfer) (d : Downloader) (w : World)
  : Transfer -> Downloader -> World -> Prop :=
| delivered_idle t' d' w' :
    same_but_failed d d' ->
    written w' = written w ->
    requested w' = requested w ->
    flowing t' = flowing t ->
    (within (maxSize d) (downloadedData t) (downloadedSize t) ->
     within (maxSize d) (downloadedData t') (downloadedSize t')) ->
    (promise t' = promise t \/
     promise t = None /\ exists e, promise t' = Some (Rejected e)) ->
    delivered u localPath events t d w t' d' w'
| delivered_ended data n da wa o1 d1 w1 t' d' w' :
    flowing t = true ->
    flowing t' = false ->
    End ∈ events ->
    same_but_failed d da ->
    written wa = written w ->
    requested wa = requested w ->
    (within (maxSize d) (downloadedData t) (downloadedSize t) ->
     within (maxSize d) data n) ->
    onEnd da wa u localPath data n = (o1, d1, w1) ->
    same_but_failed d1 d' ->
    written w' = written w1 ->
    requested w' = requested w1 ->
    (promise t' = promise (settle o1 t) \/
     promise t = None /\ exists e, promise t' = Some (Rejected e)) ->
    delivered u localPath events t d w t' d' w'.

(** The ways a call of [downloadImage] can go: answered from the
    registry; without the ['end'] handler running; with the ['end'] handler
    running on an accepted response. *)
Inductive transfer (d : Downloader) (w : World) (u : string) (resp : Response)
  : option Outcome -> Downloader -> World -> Prop :=
| transfer_cached p :
    JsMap.get (urlToPath d) u = Some p ->
    transfer d w u resp
      (Some (Resolved {| url := u; localPath := p; hash := JsMap.get (urlToHash d) u;
                         duplicate := true; cached := true;
                         duplicateOf := None; size := None |}))
      (bump_duplicates (bump_total d)) w
| transfer_idle o d' w' :
    JsMap.get (urlToPath d) u = None ->
    same_but_failed (bump_total d) d' ->
    written w' = written w ->
    requested w' = requested w \/ requested w' = (requested w ++ [u])%list ->
    (forall r, o <> Some (Resolved r)) ->
    transfer d w u resp o d' w'
| transfer_ended localPath data n da wa o1 d1 w1 o d' w' :
    JsMap.get (urlToPath d) u = None ->
    accepted (maxSize d) resp = true ->
    End ∈ responseEvents resp ->
    same_but_failed (bump_total d) da ->
    written wa = written w ->
    requested wa = (requested w ++ [u])%list ->
    within (maxSize d) data n ->
    onEnd da wa u localPath data n = (o1, d1, w1) ->
    same_but_failed d1 d' ->
    written w' = written w1 ->
    requested w' = requested w1 ->
    o = Some o1 \/ (exists e, o = Some (Rejected e)) ->
    transfer d w u resp o d' w'.

(** The number of files written whose content has digest [h]. *)
Definition filesWithHash (h : string) (w : World) : nat :=
  length (filter (fun f => md5hex f.2 = h) (written w)).

(** The registry invariant. *)
Record consistent (st : Downloader * World) : Prop := {
  (** every URL's path is the canonical path of its hash *)
  url_path_canonical u p :
    JsMap.get (urlToPath st.1) u = Some p ->
    exists h, JsMap.get (urlToHash st.1) u = Some h /\
              JsMap.get (hashToPath st.1) h = Some p;
  (** one file per registered hash, none for the others *)
  one_file_per_hash h :
    filesWithHash h st.2 = if JsMap.has (hashToPath st.1) h then 1%nat else 0%nat;
  (** the URL map holds each URL once *)
  urlToPath_wf : JsMap.wf (urlToPath st.1)
}.

(** The URLs a batch result reports on. *)
Definition resultUrls (res : BatchResult) : list string :=
  (map url (res_success res) ++ map url (res_duplicates res)
     ++ map fst (res_failed res))%list.


(** ** The events of one request *)

Lemma same_but_failed_refl d : same_but_failed d d.
Proof. split; done. Qed.

Lemma same_but_failed_trans d1 d2 d3 :
  same_but_failed d1 d2 -> same_but_failed d2 d3 -> same_but_failed d1 d3.
Proof. intros [] []. split; try congruence. lia. Qed.

Lemma same_but_failed_bump d d' :
  same_but_failed d d' -> same_but_failed d (bump_failed d').
Proof. intros []. split; simpl; try done. lia. Qed.

Lemma ensureDir_written w dir : written (ensureDir w dir) = written w.
Proof. unfold ensureDir. by case_bool_decide. Qed.

Lemma ensureDir_requested w dir : requested (ensureDir w dir) = requested w.
Proof. unfold ensureDir. by case_bool_decide. Qed.

Lemma onEnd_requested d w u localPath data n :
  requested (onEnd d w u localPath data n).2 = requested w.
Proof. unfold onEnd. by destruct (JsMap.get _ _). Qed.

(** One more event after a stretch of events. *)
Lemma delivered_step u localPath events e t d w t1 d1 w1 :
  delivered u localPath events t d w t1 d1 w1 ->
  let '(t', d', w') := deliver u localPath (t1, d1, w1) e in
  delivered u localPath (events ++ [e]) t d w t' d' w'.
Proof.
  intros Hd.
  destruct Hd as [t1 d1 w1 Hsbf Hw Hr Hfl Hbuf Hp
                 |data n da wa o1 dm wm t1 d1 w1 Hfl Hfl1 Hin Hsbf Hw Hr Hbuf
                    Hend Hsbf1 Hw1 Hr1 Hp].
  - (* no ['end'] so far *)
    destruct e as [chunk| |msg|]; cbn [deliver].
    + destruct (flowing t1) eqn:Hf1;
        [|simpl; apply delivered_idle; try done; congruence].
      unfold onData. rewrite (sbf_maxSize _ _ Hsbf).
      destruct (_ >? maxSize d) eqn:Hgt.
      * apply delivered_idle; simpl; try done; try congruence.
        -- intros Hin. destruct (Hbuf Hin) as [Hle Hm]. split; [lia|done].
        -- destruct Hp as [Hp|(Hp & e & He)].
           ++ rewrite Hp. destruct (promise t) as [o|]; eauto.
           ++ rewrite He. eauto.
      * rewrite Z.gtb_ltb in Hgt. apply Z.ltb_ge in Hgt.
        apply delivered_idle; simpl; try done; try congruence.
        intros Hin. destruct (Hbuf Hin) as [Hle Hm].
        split; rewrite length_app; lia.
    + destruct (flowing t1) eqn:Hf1;
        [|simpl; apply delivered_idle; try done; congruence].
      destruct (onEnd d1 w1 u localPath (downloadedData t1) (downloadedSize t1))
        as [[o1 dm] wm] eqn:Hend.
      eapply (delivered_ended _ _ _ _ _ _ _ _ d1 w1 o1 dm wm); simpl; try done.
      * apply elem_of_app. right. by apply list_elem_of_singleton.
      * destruct Hp as [Hp|(Hp & e & He)].
        -- left. by rewrite Hp.
        -- right. rewrite He. eauto.
    + apply delivered_idle; simpl; try done.
      * by apply same_but_failed_bump.
      * destruct Hp as [Hp|(Hp & e & He)].
        -- rewrite Hp. destruct (promise t) as [o|]; eauto.
        -- rewrite He. eauto.
    + apply delivered_idle; simpl; try done.
      * by apply same_but_failed_bump.
      * destruct Hp as [Hp|(Hp & e & He)].
        -- rewrite Hp. destruct (promise t) as [o|]; eauto.
        -- rewrite He. eauto.
  - (* ['end'] has been emitted: the stream is silent *)
    assert (Hsome : forall o, promise (settle o t1) = promise t1).
    { intros o. simpl. destruct Hp as [Hp|(_ & e0 & He)].
      - rewrite Hp. simpl. by destruct (promise t).
      - by rewrite He. }
    assert (Hin' : End ∈ (events ++ [e])%list) by (apply elem_of_app; by left).
    destruct e as [chunk| |msg|]; cbn [deliver]; rewrite ?Hfl1.
    + by eapply delivered_ended.
    + by eapply delivered_ended.
    + eapply (delivered_ended _ _ _ _ _ _ _ _ da wa o1 dm wm); try done.
      * by apply same_but_failed_bump.
      * by rewrite Hsome.
    + eapply (delivered_ended _ _ _ _ _ _ _ _ da wa o1 dm wm); try done.
      * by apply same_but_failed_bump.
      * by rewrite Hsome.
Qed.

Lemma deliver_delivered u localPath events t d w :
  let '(t', d', w') := foldl (deliver u localPath) (t, d, w) events in
  delivered u localPath events t d w t' d' w'.
Proof.
  induction events as [|e events IH] using rev_ind.
  - simpl. apply delivered_idle; auto using same_but_failed_refl.
  - rewrite foldl_app. simpl.
    destruct (foldl (deliver u localPath) (t, d, w) events) as [[t1 d1] w1].
    apply delivered_step, IH.
Qed.

(** ** One call *)

Lemma onResponse_transfer d w w0 u localPath resp :
  JsMap.get (urlToPath d) u = None ->
  written w = written w0 ->
  requested w = (requested w0 ++ [u])%list ->
  let '(o, d', w') := onResponse (bump_total d) w u localPath resp in
  transfer d w0 u resp o d' w'.
Proof.
  intros Hu Hw Hr. unfold onResponse.
  change (maxSize (bump_total d)) with (maxSize d).
  set (idle := {| downloadedData := []; downloadedSize := 0;
                  flowing := false; promise := None |}).
  assert (Hidle : forall t w1 events,
    flowing t = false ->
    (forall r, promise t <> Some (Resolved r)) ->
    written w1 = written w0 ->
    requested w1 = (requested w0 ++ [u])%list ->
    let '(o, d', w') :=
      let '(t', d', w') := foldl (deliver u localPath) (t, bump_total d, w1) events in
      (promise t', d', w') in
    transfer d w0 u resp o d' w').
  { intros t w1 events Hfl Hnr Hw1 Hr1.
    pose proof (deliver_delivered u localPath events t (bump_total d) w1) as Hd.
    destruct (foldl _ _ _) as [[t' d'] w'].
    destruct Hd as [t' d' w' Hsbf Hw' Hr' _ _ Hp|]; [|congruence].
    apply transfer_idle; try done; try congruence.
    - right. congruence.
    - intros r Hres. destruct Hp as [Hp|(_ & e & He)]; [|congruence].
      apply (Hnr r). congruence. }
  destruct resp as [events|statusCode contentLength events].
  { by apply Hidle. }
  destruct (statusCode =? 200) eqn:Hs; simpl negb; cbv iota.
  2:{ by apply Hidle. }
  destruct (declaredTooLarge (maxSize d) contentLength) as [n|] eqn:Hdecl.
  { by apply Hidle. }
  set (t0 := {| downloadedData := []; downloadedSize := 0;
                flowing := true; promise := None |}).
  pose proof (deliver_delivered u localPath events t0 (bump_total d) w) as Hd.
  destruct (foldl _ _ _) as [[t' d'] w'].
  assert (Hempty : within (maxSize d) [] 0) by (split; simpl; lia).
  destruct Hd as [t' d' w' Hsbf Hw' Hr' _ _ Hp
                 |data n da wa o1 d1 w1 t' d' w' _ _ Hin Hsbf Hwa Hra Hbuf
                    Hend Hsbf1 Hw1 Hr1 Hp].
  - apply transfer_idle; try done; try congruence.
    + right. congruence.
    + intros r Hres. destruct Hp as [Hp|(_ & e & He)]; simpl in *; congruence.
  - eapply (transfer_ended _ _ _ _ localPath data n da wa o1 d1 w1); try done;
      try congruence.
    + simpl. by rewrite Hs, Hdecl.
    + by apply Hbuf.
    + destruct Hp as [Hp|(_ & e & He)]; [by left|right; eauto].
Qed.

Lemma downloadImage_transfer d w u baseUrl resp :
  let '(o, d', w') := downloadImage d w u baseUrl resp in
  transfer d w u resp o d' w'.
Proof.
  unfold downloadImage. change (urlToPath (bump_total d)) with (urlToPath d).
  change (urlToHash (bump_total d)) with (urlToHash d).
  destruct (JsMap.get (urlToPath d) u) as [p|] eqn:Hu; [by apply transfer_cached|].
  assert (Hfail : forall e w', written w' = written w -> requested w' = requested w ->
    transfer d w u resp (Some (Rejected e)) (bump_failed (bump_total d)) w').
  { intros e w' Hw Hr. apply transfer_idle; try done; [|by left].
    apply same_but_failed_bump, same_but_failed_refl. }
  destruct (parseUrl u) as [url|]; [|by apply Hfail].
  destruct (_ || _);
    [|apply Hfail; [apply ensureDir_written|apply ensureDir_requested]].
  apply onResponse_transfer; [done|apply ensureDir_written|].
  simpl. by rewrite ensureDir_requested.
Qed.

Lemma step_transfer st c :
  exists o, transfer st.1 st.2 (call_url c) (call_response c) o (step st c).1 (step st c).2.
Proof.
  unfold step.
  pose proof (downloadImage_transfer st.1 st.2 (call_url c) (call_base c)
                (call_response c)) as Ht.
  destruct (downloadImage _ _ _ _ _) as [[o d'] w']. by exists o.
Qed.

(** ** The ['end'] handler *)

Lemma onEnd_effect d0 w0 d w u localPath data n :
  JsMap.get (urlToPath d0) u = None ->
  hashToPath d = hashToPath d0 ->
  urlToHash d = urlToHash d0 ->
  urlToPath d = urlToPath d0 ->
  written w = written w0 ->
  let '(_, d', w') := onEnd d w u localPath data n in
  effect d0 w0 u d' w'.
Proof.
  intros Hu Hh Huh Hup Hw. unfold onEnd. rewrite Hh.
  destruct (JsMap.get (hashToPath d0) (md5hex data)) as [p|] eqn:Hget.
  - eapply effect_duplicate; simpl; try done; congruence.
  - eapply effect_new; simpl; try done; congruence.
Qed.

Lemma onEnd_same d w u localPath data n :
  let d' := (onEnd d w u localPath data n).1.2 in
  baseOutputDir d' = baseOutputDir d /\
  maxSize d' = maxSize d /\
  total (stats d') = total (stats d) /\
  failed (stats d') = failed (stats d).
Proof. unfold onEnd. by destruct (JsMap.get _ _). Qed.

Lemma onEnd_result d w u localPath data n r d1 w1 :
  onEnd d w u localPath data n = (Resolved r, d1, w1) ->
  JsMap.get (urlToPath d1) u = Some (Downloader.localPath r) /\
  JsMap.get (urlToHash d1) u = hash r /\
  url r = u.
Proof.
  unfold onEnd. destruct (JsMap.get (hashToPath d) _);
    intros [= <- <- <-]; simpl; by rewrite !JsMapFacts.get_set_eq.
Qed.

(** ** What a call does to the registry *)

Lemma transfer_effect d w u resp o d' w' :
  transfer d w u resp o d' w' -> effect d w u d' w'.
Proof.
  intros [p Hu|o2 d2 w2 Hu Hsbf Hw _ _
         |lp data n da wa o1 d1 w1 o2 d2 w2 Hu _ _ Hsbf Hwa _ _ Hend Hsbf1 Hw1 _ _].
  - by apply effect_none.
  - destruct Hsbf. by apply effect_none.
  - destruct Hsbf, Hsbf1.
    pose proof (onEnd_effect d w da wa u lp data n Hu) as He.
    rewrite Hend in He.
    destruct He as [d3 w3 Hh Huh Hup Hw2
                   |d3 w3 data' p Hu' Hhash Hh Huh Hup Hw2
                   |d3 w3 data' p Hu' Hhash Hh Huh Hup Hw2]; try done.
    + apply effect_none; congruence.
    + apply (effect_duplicate _ _ _ _ _ data' p); try done; congruence.
    + apply (effect_new _ _ _ _ _ data' p); try done; congruence.
Qed.

Lemma downloadImage_effect d w u baseUrl resp :
  let '(_, d', w') := downloadImage d w u baseUrl resp in
  effect d w u d' w'.
Proof.
  pose proof (downloadImage_transfer d w u baseUrl resp) as Ht.
  destruct (downloadImage _ _ _ _ _) as [[o d'] w']. by eapply transfer_effect.
Qed.

Lemma step_effect st c : effect st.1 st.2 (call_url c) (step st c).1 (step st c).2.
Proof. destruct (step_transfer st c) as [o Ht]. by eapply transfer_effect. Qed.

Lemma transfer_same d w u resp o d' w' :
  transfer d w u resp o d' w' ->
  baseOutputDir d' = baseOutputDir d /\
  maxSize d' = maxSize d /\
  total (stats d') = total (stats d) + 1.
Proof.
  intros [p Hu|o2 d2 w2 Hu Hsbf Hw _ _
         |lp data n da wa o1 d1 w1 o2 d2 w2 Hu _ _ Hsbf Hwa _ _ Hend Hsbf1 Hw1 _ _].
  - done.
  - by destruct Hsbf.
  - destruct Hsbf, Hsbf1.
    pose proof (onEnd_same da wa u lp data n) as Hs. rewrite Hend in Hs.
    simpl in *. destruct Hs as (Hb & Hm & Ht & _). repeat split; congruence.
Qed.


Lemma downloadImage_total d w u baseUrl resp :
  total (stats (downloadImage d w u baseUrl resp).1.2) = total (stats d) + 1.
Proof.
  pose proof (downloadImage_transfer d w u baseUrl resp) as Ht.
  destruct (downloadImage _ _ _ _ _) as [[o d'] w'].
  by destruct (transfer_same _ _ _ _ _ _ _ Ht) as (_ & _ & ?).
Qed.

Lemma step_maxSize st c : maxSize (step st c).1 = maxSize st.1.
Proof.
  destruct (step_transfer st c) as [o Ht].
  by destruct (transfer_same _ _ _ _ _ _ _ Ht) as (_ & ? & _).
Qed.

Lemma run_maxSize st calls : maxSize (run st calls).1 = maxSize st.1.
Proof.
  revert st. induction calls as [|c calls IH]; intros st; simpl; [done|].
  by rewrite IH, step_maxSize.
Qed.

(** A call issues at most one request, for its own URL, and none for a
    registered URL. *)
Lemma transfer_requested d w u resp o d' w' :
  transfer d w u resp o d' w' ->
  requested w' = requested w \/
  JsMap.get (urlToPath d) u = None /\ requested w' = (requested w ++ [u])%list.
Proof.
  intros [p Hu|o2 d2 w2 Hu Hsbf Hw Hr _
         |lp data n da wa o1 d1 w1 o2 d2 w2 Hu _ _ Hsbf Hwa Hra _ Hend Hsbf1 Hw1 Hr1 _].
  - by left.
  - destruct Hr; auto.
  - right. split; [done|].
    pose proof (onEnd_requested da wa u lp data n) as Hr. rewrite Hend in Hr.
    simpl in Hr. congruence.
Qed.

Lemma downloadImage_requested d w u baseUrl resp :
  requested (downloadImage d w u baseUrl resp).2 = requested w \/
  requested (downloadImage d w u baseUrl resp).2 = (requested w ++ [u])%list.
Proof.
  pose proof (downloadImage_transfer d w u baseUrl resp) as Ht.
  destruct (downloadImage _ _ _ _ _) as [[o d'] w'].
  destruct (transfer_requested _ _ _ _ _ _ _ Ht) as [?|[_ ?]]; auto.
Qed.

(** A call that resolves leaves its URL registered with the path and the
    hash of the record it resolves with. *)
Lemma transfer_result d w u resp r d' w' :
  transfer d w u resp (Some (Resolved r)) d' w' ->
  JsMap.get (urlToPath d') u = Some (localPath r) /\
  JsMap.get (urlToHash d') u = hash r /\
  url r = u.
Proof.
  intros Ht.
  inversion Ht as [p Hu|o d0 w0 Hu Hsbf Hw _ Hnr
                  |lp data n da wa o1 d1 w1 o d0 w0 Hu _ _ Hsbf Hwa _ _ Hend Hsbf1 Hw1 _ Ho];
    subst.
  - done.
  - by destruct (Hnr r).
  - destruct Ho as [[= <-]|(e & [=])].
    destruct (onEnd_result _ _ _ _ _ _ _ _ _ Hend) as (Hp & Hh & Hurl).
    destruct Hsbf1. repeat split; congruence.
Qed.

Lemma downloadImage_result d w u baseUrl resp r d1 w1 :
  downloadImage d w u baseUrl resp = (Some (Resolved r), d1, w1) ->
  JsMap.get (urlToPath d1) u = Some (localPath r) /\
  JsMap.get (urlToHash d1) u = hash r /\
  url r = u.
Proof.
  intros Hd. pose proof (downloadImage_transfer d w u baseUrl resp) as Ht.
  rewrite Hd in Ht. by eapply transfer_result.
Qed.

(** ** Transfers that complete *)





(** ** Promises that settle *)



(** ** The registry invariant *)

Lemma fresh_consistent c existingDirs : consistent (fresh c existingDirs).
Proof.
  split; simpl.
  - done.
  - done.
  - apply JsMapFacts.wf_empty.
Qed.

Lemma effect_consistent d w u d' w' :
  effect d w u d' w' -> consistent (d, w) -> consistent (d', w').
Proof.
  intros He [Hcan Hone Hwf]; simpl in *.
  destruct He as [d' w' Hh Huh Hup Hw
                 |d' w' data p Hu Hhash Hh Huh Hup Hw
                 |d' w' data lp Hu Hhash Hh Huh Hup Hw].
  - split; simpl; unfold filesWithHash; rewrite ?Hh, ?Huh, ?Hup, ?Hw; done.
  - split; simpl; unfold filesWithHash; rewrite ?Hh, ?Huh, ?Hup, ?Hw.
    + intros u0 p0. rewrite !JsMapFacts.get_set. case_decide as Hu0.
      * intros [= <-]. eauto.
      * apply Hcan.
    + apply Hone.
    + by apply JsMapFacts.wf_set.
  - split; simpl; unfold filesWithHash; rewrite ?Hh, ?Huh, ?Hup, ?Hw.
    + intros u0 p0. rewrite !JsMapFacts.get_set. case_decide as Hu0.
      * intros [= <-]. exists (md5hex data). by rewrite JsMapFacts.get_set_eq.
      * intros Hp0. destruct (Hcan _ _ Hp0) as (h & Hh0 & Hp).
        exists h. split; [done|].
        rewrite JsMapFacts.get_set. case_decide as Heq; [|done].
        subst h. congruence.
    + intros h. rewrite filter_app, length_app. simpl.
      unfold JsMap.has. rewrite JsMapFacts.get_set.
      specialize (Hone h). unfold filesWithHash, JsMap.has in Hone.
      rewrite Hone. rewrite filter_cons, filter_nil. simpl.
      repeat case_decide; simplify_eq; rewrite ?Hhash; simpl; try done;
        destruct (JsMap.get (hashToPath d) h); simpl; lia.
    + by apply JsMapFacts.wf_set.
Qed.

Lemma step_consistent st c : consistent st -> consistent (step st c).
Proof.
  intros Hc. pose proof (step_effect st c) as He.
  destruct st as [d w], (step (d, w) c) as [d' w']. by eapply effect_consistent.
Qed.

Lemma run_consistent st calls : consistent st -> consistent (run st calls).
Proof.
  revert st. induction calls as [|c calls IH]; intros st Hc; simpl; [done|].
  apply IH. by apply step_consistent.
Qed.

(** Registered hashes and URLs keep their paths. *)
Lemma effect_hashToPath d w u d' w' h p :
  effect d w u d' w' ->
  JsMap.get (hashToPath d) h = Some p -> JsMap.get (hashToPath d') h = Some p.
Proof.
  intros [d1 w1 Hh _ _ _|d1 w1 data q _ _ Hh _ _ _|d1 w1 data lp _ Hnone Hh _ _ _] Hp;
    rewrite Hh; [done..|].
  rewrite JsMapFacts.get_set. case_decide; [congruence|done].
Qed.

Lemma effect_urlToPath d w u d' w' u0 p :
  effect d w u d' w' ->
  JsMap.get (urlToPath d) u0 = Some p -> JsMap.get (urlToPath d') u0 = Some p.
Proof.
  intros [d1 w1 _ _ Hup _|d1 w1 data q Hu _ _ _ Hup _|d1 w1 data lp Hu _ _ _ Hup _] Hp;
    rewrite Hup; [done|..];
    rewrite JsMapFacts.get_set; case_decide; congruence.
Qed.

(** A registered URL keeps its hash: only the call that registers a URL
    sets its hash. *)
Lemma effect_registered_hash d w u d' w' u0 p :
  effect d w u d' w' ->
  JsMap.get (urlToPath d) u0 = Some p ->
  JsMap.get (urlToHash d') u0 = JsMap.get (urlToHash d) u0.
Proof.
  intros [d1 w1 _ Huh _ _|d1 w1 data q Hu _ _ Huh _ _|d1 w1 data lp Hu _ _ Huh _ _] Hp;
    rewrite Huh; [done|..];
    rewrite JsMapFacts.get_set; case_decide; congruence.
Qed.

Lemma run_hashToPath st calls h p :
  JsMap.get (hashToPath st.1) h = Some p ->
  JsMap.get (hashToPath (run st calls).1) h = Some p.
Proof.
  revert st. induction calls as [|c calls IH]; intros st Hp; simpl; [done|].
  apply IH. eapply effect_hashToPath; [apply step_effect|done].
Qed.

Lemma run_urlToPath st calls u p :
  JsMap.get (urlToPath st.1) u = Some p ->
  JsMap.get (urlToPath (run st calls).1) u = Some p.
Proof.
  revert st. induction calls as [|c calls IH]; intros st Hp; simpl; [done|].
  apply IH. eapply effect_urlToPath; [apply step_effect|done].
Qed.

Lemma run_registered_hash st calls u p :
  JsMap.get (urlToPath st.1) u = Some p ->
  JsMap.get (urlToHash (run st calls).1) u = JsMap.get (urlToHash st.1) u.
Proof.
  revert st. induction calls as [|c calls IH]; intros st Hp; simpl; [done|].
  rewrite IH.
  - eapply effect_registered_hash; [apply step_effect|done].
  - eapply effect_urlToPath; [apply step_effect|done].
Qed.


Lemma manifest_entry_inv d e :
  JsMap.wf (urlToPath d) ->
  In e (manifest_images (generateManifest d)) ->
  JsMap.get (urlToPath d) (m_url e) = Some (m_localPath e) /\
  e = manifestImage d (m_url e, m_localPath e).
Proof.
  intros Hwf Hin. unfold generateManifest in Hin. cbn [manifest_images] in Hin.
  apply in_map_iff in Hin as ([u p] & <- & Hin).
  simpl. split; [|done].
  apply JsMapFacts.get_entry; [done|]. by apply list_elem_of_In.
Qed.

(** C10: in every state of a job, every URL present in [urlToPath] is
    mapped to the canonical path of its content hash:
    [urlToPath.get(u) = hashToPath.get(urlToHash.get(u))]. *)
Theorem registry_path_canonical c existingDirs calls u :
  let d := (run (fresh c existingDirs) calls).1 in
  JsMap.has (urlToPath d) u = true ->
  JsMap.get (urlToPath d) u = JsMap.get (urlToHash d) u ≫= JsMap.get (hashToPath d).
Proof.
  intros d Hhas. apply JsMapFacts.has_true in Hhas as [p Hp].
  destruct (url_path_canonical _
              (run_consistent _ calls (fresh_consistent c existingDirs)) u p Hp)
    as (h & Hh & Hhp).
  fold d in Hh, Hhp. by rewrite Hp, Hh.
Qed.

(** ** Identical contents *)


(** ** The duplicate flag of the manifest *)

Lemma pathDiffers_canonical st u p :
  consistent st ->
  JsMap.get (urlToPath st.1) u = Some p ->
  pathDiffers st.1 (JsMap.get (urlToHash st.1) u) (Some p) = false.
Proof.
  intros Hc Hp. destruct (url_path_canonical _ Hc u p Hp) as (h & Hh & Hhp).
  unfold pathDiffers. rewrite Hh. simpl. rewrite Hhp.
  by rewrite bool_decide_eq_true_2.
Qed.

(** In every state of a job no manifest entry is marked as a duplicate
    and none names an original file. *)
Lemma manifest_duplicate_false c existingDirs calls e :
  let d := (run (fresh c existingDirs) calls).1 in
  In e (manifest_images (generateManifest d)) ->
  m_duplicate e = false /\ m_originalFile e = None.
Proof.
  intros d Hin.
  pose proof (run_consistent _ calls (fresh_consistent c existingDirs)) as Hc.
  apply (manifest_entry_inv _ _ (urlToPath_wf _ Hc)) in Hin as [Hget ->].
  unfold manifestImage. cbn [m_duplicate m_originalFile].
  by rewrite (pathDiffers_canonical _ _ _ Hc Hget).
Qed.

(** Nor is any page image that [updatePagesWithLocalPaths] annotates. *)
Lemma updateImage_duplicate_false c existingDirs calls img :
  let d := (run (fresh c existingDirs) calls).1 in
  is_Some (src img ≫= JsMap.get (urlToPath d)) ->
  img_duplicate (updateImage d img) = Some false.
Proof.
  intros d [p Hp].
  pose proof (run_consistent _ calls (fresh_consistent c existingDirs)) as Hc.
  unfold updateImage. rewrite Hp. cbn [img_duplicate].
  destruct (src img) as [u|]; simpl in *; [|done].
  f_equal. exact (pathDiffers_canonical _ _ _ Hc Hp).
Qed.

(** ** Repeated downloads of one URL *)

(** A call for a registered URL. *)
Lemma downloadImage_registered d w u baseUrl resp p :
  JsMap.get (urlToPath d) u = Some p ->
  downloadImage d w u baseUrl resp
  = (Some (Resolved {| url := u; localPath := p; hash := JsMap.get (urlToHash d) u;
                       duplicate := true; cached := true;
                       duplicateOf := None; size := None |}),
     bump_duplicates (bump_total d), w).
Proof.
  intros Hp. unfold downloadImage.
  change (urlToPath (bump_total d)) with (urlToPath d). by rewrite Hp.
Qed.

(** C8 (amended): once a download of [u] has resolved, every later
    [downloadImage] call for [u], after any further calls on the
    downloader, resolves at once with the path and the hash of the first
    record (flagged [duplicate] and [cached]), whatever the network would
    deliver: the world is as before the call (no request, no file), and of
    the downloader only [stats.total] and [stats.duplicates] have moved. *)
Theorem downloadImage_cached d w u baseUrl resp r d1 w1 calls baseUrl' resp' :
  downloadImage d w u baseUrl resp = (Some (Resolved r), d1, w1) ->
  let st := run (d1, w1) calls in
  downloadImage st.1 st.2 u baseUrl' resp'
  = (Some (Resolved {| url := u; localPath := localPath r; hash := hash r;
                       duplicate := true; cached := true;
                       duplicateOf := None; size := None |}),
     bump_duplicates (bump_total st.1), st.2).
Proof.
  intros Hfirst st. apply downloadImage_result in Hfirst as (Hp & Hh & _).
  assert (Hp' : JsMap.get (urlToPath st.1) u = Some (localPath r))
    by by apply run_urlToPath.
  rewrite (downloadImage_registered _ _ _ _ _ _ Hp').
  unfold st. rewrite (run_registered_hash (d1, w1) calls u _ Hp). simpl.
  by rewrite Hh.
Qed.

(** ** The batch *)

(** The call the batch makes for a URL. *)
Definition callOf (net : string -> Response) (baseUrl u : string) : Call :=
  {| call_url := u; call_base := baseUrl; call_response := net u |}.

Lemma perm_snoc_mid (a b : list string) u : ((a ++ [u]) ++ b ≡ₚ (a ++ b) ++ [u])%list.
Proof.
  rewrite <- !app_assoc. apply Permutation_app_head, Permutation_app_comm.
Qed.


(** A batch that returns has filed every URL in one of its lists, by the
    outcome of the call made for it. *)
Lemma downloadLoop_filed net baseUrl urls acc d w res d' w' :
  downloadLoop net baseUrl urls acc d w = (Some res, d', w') ->
  resultUrls res ≡ₚ (resultUrls acc ++ urls)%list /\
  (forall r, r ∈ res_success acc -> r ∈ res_success res) /\
  (forall r, r ∈ res_duplicates acc -> r ∈ res_duplicates res) /\
  (forall f, f ∈ res_failed acc -> f ∈ res_failed res) /\
  forall i u, urls !! i = Some u ->
    let st := run (d, w) (map (callOf net baseUrl) (take i urls)) in
    match (downloadImage st.1 st.2 u baseUrl (net u)).1.1 with
    | Some (Resolved r) =>
        if duplicate r then r ∈ res_duplicates res else r ∈ res_success res
    | Some (Rejected e) => (u, e) ∈ res_failed res
    | None => False
    end.
Proof.
  revert acc d w. induction urls as [|u urls IH]; intros acc d w.
  { simpl. intros [= <- <- <-]. rewrite app_nil_r. repeat split; done. }
  cbn [downloadLoop].
  assert (Hstep : step (d, w) (callOf net baseUrl u)
                  = ((downloadImage d w u baseUrl (net u)).1.2,
                     (downloadImage d w u baseUrl (net u)).2)).
  { unfold step. simpl. by destruct (downloadImage _ _ _ _ _) as [[o d1] w1]. }
  pose proof (downloadImage_result d w u baseUrl (net u)) as Hres.
  destruct (downloadImage d w u baseUrl (net u)) as [[o d1] w1] eqn:Hd.
  simpl in Hstep.
  destruct o as [[r|e]|]; [| |done].
  - destruct (Hres r d1 w1 eq_refl) as (_ & _ & Hurl).
    match goal with |- downloadLoop _ _ _ ?a _ _ = _ -> _ => set (acc' := a) end.
    intros Hloop. destruct (IH acc' d1 w1 Hloop) as (Hperm & Hs & Hdup & Hf & Hall).
    assert (Hacc : resultUrls acc' ≡ₚ (resultUrls acc ++ [u])%list).
    { unfold acc', resultUrls.
      destruct (duplicate r); simpl; rewrite !map_app; simpl; rewrite Hurl.
      - rewrite perm_snoc_mid. by rewrite <- !app_assoc.
      - apply perm_snoc_mid. }
    assert (Hin : if duplicate r then r ∈ res_duplicates acc' else r ∈ res_success acc').
    { unfold acc'. destruct (duplicate r); simpl;
        apply elem_of_app; right; by apply list_elem_of_singleton. }
    split; [|split; [|split; [|split]]].
    + rewrite Hperm, Hacc. by rewrite <- app_assoc.
    + intros r0 Hr0. apply Hs. unfold acc'. destruct (duplicate r); simpl; [done|].
      apply elem_of_app. by left.
    + intros r0 Hr0. apply Hdup. unfold acc'. destruct (duplicate r); simpl; [|done].
      apply elem_of_app. by left.
    + intros f Hf0. apply Hf. unfold acc'. by destruct (duplicate r).
    + intros [|i] v Hv; simpl in Hv.
      * injection Hv as <-. simpl. rewrite Hd. simpl.
        destruct (duplicate r); auto.
      * simpl. rewrite Hstep. by apply Hall.
  - match goal with |- downloadLoop _ _ _ ?a _ _ = _ -> _ => set (acc' := a) end.
    intros Hloop. destruct (IH acc' d1 w1 Hloop) as (Hperm & Hs & Hdup & Hf & Hall).
    assert (Hacc : resultUrls acc' ≡ₚ (resultUrls acc ++ [u])%list).
    { unfold acc', resultUrls. simpl. rewrite !map_app. simpl.
      by rewrite <- !app_assoc. }
    split; [|split; [|split; [|split]]].
    + rewrite Hperm, Hacc. by rewrite <- app_assoc.
    + done.
    + done.
    + intros f Hf0. apply Hf. unfold acc'. simpl. apply elem_of_app. by left.
    + intros [|i] v Hv; simpl in Hv.
      * injection Hv as <-. simpl. rewrite Hd. simpl. apply Hf.
        unfold acc'. simpl. apply elem_of_app. right. by apply list_elem_of_singleton.
      * simpl. rewrite Hstep. by apply Hall.
Qed.








End Registry.

(** ** Worked examples *)

#[local] Existing Instance Examples.exampleNode.

Definition cfg : RawConfig :=
  {| raw_outputDir := Some "out"; raw_maxSize := Some 4; raw_timeout := None |}.

Definition base : string := "https://example.com".
Definition logoUrl : string := "https://example.com/img/logo.png".
Definition copyUrl : string := "https://cdn.example.com/copy/logo.png".
Definition logoPath : string := "out/example.com/img/logo.png".
(** The bytes [P], [N], [G]. *)
Definition logoBytes : bytes := [Byte.x50; Byte.x4e; Byte.x47].

(** A complete transfer of the three bytes of the logo. *)
Definition ok : Response := Reply 200 (Some 3) [Data logoBytes; End].

Definition getLogo : Call :=
  {| call_url := logoUrl; call_base := base; call_response := ok |}.
Definition getCopy : Call :=
  {| call_url := copyUrl; call_base := base; call_response := ok |}.

Definition logoRecord : ImageResult :=
  {| url := logoUrl; localPath := logoPath; hash := Some "PNG";
     duplicate := false; cached := false; duplicateOf := None; size := Some 3 |}.

(** The record a call resolves with when the URL is registered. *)
Definition cachedRecord (u p h : string) : ImageResult :=
  {| url := u; localPath := p; hash := Some h;
     duplicate := true; cached := true; duplicateOf := None; size := None |}.

(** A page with the logo under both of its URLs. *)
Definition logoPage : Page :=
  {| images := Some [ {| src := Some logoUrl; img_localPath := None;
                         img_hash := None; img_duplicate := None |};
                      {| src := Some copyUrl; img_localPath := None;
                         img_hash := None; img_duplicate := None |} ] |}.

Lemma registry_path_canonical_witness :
  let d := (run (fresh cfg []) [getLogo; getCopy]).1 in
  JsMap.get (urlToPath d) copyUrl
    = JsMap.get (urlToHash d) copyUrl ≫= JsMap.get (hashToPath d).
Proof.
  apply (registry_path_canonical cfg [] [getLogo; getCopy] copyUrl).
  reflexivity.
Defined.


(** C4 fails on the code.  The logo is downloaded from two URLs.  The
    second [downloadImage] resolves with [duplicate: true], pointing at the
    first file.  The manifest and [updatePagesWithLocalPaths] recompute the
    flag as [hashToPath.get(hash) !== localPath], and both URLs carry the
    canonical path of the hash: both manifest entries and both page images
    say [duplicate: false], none says [true]. *)
Theorem manifest_marks_no_duplicate :
  let st1 := step (fresh cfg []) getLogo in
  let st2 := step st1 getCopy in
  let img u := {| src := Some u; img_localPath := None;
                  img_hash := None; img_duplicate := None |} in
  let done u := {| src := Some u; img_localPath := Some logoPath;
                   img_hash := Some "PNG"; img_duplicate := Some false |} in
  (downloadImage st1.1 st1.2 copyUrl base ok).1.1
    = Some (Resolved {| url := copyUrl; localPath := logoPath; hash := Some "PNG";
                        duplicate := true; cached := false;
                        duplicateOf := Some logoPath; size := Some 3 |}) /\
  map (fun e => (m_url e, m_localPath e, m_duplicate e, m_originalFile e))
      (manifest_images (generateManifest st2.1))
    = [(logoUrl, logoPath, false, None); (copyUrl, logoPath, false, None)] /\
  updatePagesWithLocalPaths st2.1 [ {| images := Some [img logoUrl; img copyUrl] |} ]
    = [ {| images := Some [done logoUrl; done copyUrl] |} ].
Proof. vm_compute. repeat split. Qed.

(** C7 fails on the code.  The ceiling is 4 bytes.  A body of two chunks of
    three bytes passes it with the second chunk: the ['data'] handler calls
    [request.destroy()] and rejects with the size error.  The ['end']
    handler, which tests neither, then runs on what was buffered: it writes
    the first three bytes to disk, registers the URL and counts one
    download of six bytes, and a later call for the URL is answered from
    the registry.  A single chunk of six bytes under a declared length of
    three ends the same way with an empty file.  Only a declared length
    above the ceiling is handled as claimed: the response callback returns
    before the handlers are attached, and nothing is written. *)
Theorem oversized_download_written :
  let w0 := (fresh cfg []).2 in
  let twoChunks := Reply 200 None [Data logoBytes; Data logoBytes; End] in
  let oneChunk := Reply 200 (Some 3) [Data (logoBytes ++ logoBytes)%list; End] in
  let declared := Reply 200 (Some 6) [Data logoBytes; Data logoBytes; End] in
  let first := downloadImage (new cfg) w0 logoUrl base twoChunks in
  let again := downloadImage first.1.2 first.2 logoUrl base twoChunks in
  let single := downloadImage (new cfg) w0 logoUrl base oneChunk in
  let refused := downloadImage (new cfg) w0 logoUrl base declared in
  maxSize (new cfg) = 4 /\
  first.1.1 = Some (Rejected SizeExceeded) /\
  destroyed first.2 = [logoUrl] /\
  written first.2 = [(logoPath, logoBytes)] /\
  JsMap.get (urlToPath first.1.2) logoUrl = Some logoPath /\
  stats first.1.2 = {| total := 1; downloaded := 1; duplicates := 0;
                       failed := 0; totalSize := 6 |} /\
  again.1.1 = Some (Resolved (cachedRecord logoUrl logoPath "PNG")) /\
  single.1.1 = Some (Rejected SizeExceeded) /\
  written single.2 = [(logoPath, [])] /\
  JsMap.get (urlToPath single.1.2) logoUrl = Some logoPath /\
  refused.1.1 = Some (Rejected (TooLarge 6)) /\
  written refused.2 = [] /\
  JsMap.get (urlToPath refused.1.2) logoUrl = None.
Proof. vm_compute. repeat split. Qed.

(** C8, as stated, fails: an attempt is not remembered, a registry entry
    is.  After a first attempt that ended in [HTTP 404] the second call for
    the same URL issues a second request, and resolves with a freshly
    written file instead of a cached record. *)
Lemma failed_attempt_refetched_counterexample :
  let w0 := (fresh cfg []).2 in
  let first := downloadImage (new cfg) w0 logoUrl base (Reply 404 None []) in
  let second := downloadImage first.1.2 first.2 logoUrl base ok in
  first.1.1 = Some (Rejected (HttpStatus 404)) /\
  requested first.2 = [logoUrl] /\
  second.1.1 = Some (Resolved logoRecord) /\
  cached logoRecord = false /\
  requested second.2 = [logoUrl; logoUrl] /\
  written second.2 = [(logoPath, logoBytes)].
Proof. vm_compute. repeat split. Qed.

Lemma downloadImage_cached_witness :
  let first := downloadImage (new cfg) (fresh cfg []).2 logoUrl base ok in
  let st := run (first.1.2, first.2)
                [getCopy;
                 {| call_url := logoUrl; call_base := base;
                    call_response :=
                      Reply 200 None [Data [Byte.x47; Byte.x49; Byte.x46]; End] |}] in
  downloadImage st.1 st.2 logoUrl base (NoResponse [RequestTimeout])
  = (Some (Resolved {| url := logoUrl; localPath := localPath logoRecord;
                       hash := hash logoRecord;
                       duplicate := true; cached := true;
                       duplicateOf := None; size := None |}),
     bump_duplicates (bump_total st.1), st.2).
Proof.
  intros first.
  apply (downloadImage_cached (new cfg) (fresh cfg []).2 logoUrl base ok
           logoRecord first.1.2 first.2).
  reflexivity.
Defined.

(** C9 fails on the code.  The page shows the logo under two URLs.  For the
    first the server sends the status line, the headers and one byte of
    three, and the connection closes: no ['end'], no event on the request.
    The promise of the first [downloadImage] stays pending, the loop never
    resumes, [downloadAllImages] returns nothing and the second URL is
    never attempted.  A failure that settles the promise ([HTTP 404], or an
    ['error'] of the request in the middle of the body) is filed under
    [failed] and the batch goes on to the second URL, as claimed. *)
Theorem downloadAllImages_never_returns :
  let w0 := (fresh cfg []).2 in
  let answer (first : Response) (u : string) : Response :=
    if String.eqb u logoUrl then first else ok in
  let cut := Reply 200 (Some 3) [Data [Byte.x50]] in
  let dropped := Reply 200 (Some 3) [Data [Byte.x50]; RequestError "ECONNRESET"] in
  let stuck := downloadAllImages (answer cut) (new cfg) w0 [logoPage] base in
  let missing := downloadAllImages (answer (Reply 404 None [])) (new cfg) w0 [logoPage] base in
  let broken := downloadAllImages (answer dropped) (new cfg) w0 [logoPage] base in
  let filed (batch : option BatchResult * Downloader * World) :=
    (fun res => (map url (res_success res), map url (res_duplicates res),
                 res_failed res)) <$> batch.1.1 in
  uniqueImageUrls [logoPage] = [logoUrl; copyUrl] /\
  stuck.1.1 = None /\
  requested stuck.2 = [logoUrl] /\
  total (stats stuck.1.2) = 1 /\
  filed missing = Some ([copyUrl], [], [(logoUrl, HttpStatus 404)]) /\
  requested missing.2 = [logoUrl; copyUrl] /\
  filed broken = Some ([copyUrl], [], [(logoUrl, NetworkError "ECONNRESET")]).
Proof. vm_compute. repeat split. Qed.

End DownloaderFacts.

(** * Further properties of the crawl *)

Module CrawlFacts.
Import Nav Scraper NavFacts.

(** ** Sorting twice *)

Lemma compareItems_total cr x y :
  compareItems cr x y > 0 -> compareItems cr y x <= 0.
Proof.
  intros Hgt. apply compareItems_le.
  assert (Hn : ~ compareItems cr x y <= 0) by lia.
  rewrite compareItems_le in Hn.
  destruct (decide (sortLevel cr y < sortLevel cr x)); [by left|right].
  destruct (decide (sortLevel cr x = sortLevel cr y)) as [Heq|Hne].
  - split; [done|]. intros Hx.
    destruct (isNavigation y) eqn:Hy; [done|].
    exfalso. apply Hn. right. split; [done|]. discriminate.
  - exfalso. apply Hn. left. lia.
Qed.

Lemma compareItems_trans cr x y z :
  compareItems cr x y <= 0 -> compareItems cr y z <= 0 -> compareItems cr x z <= 0.
Proof.
  rewrite !compareItems_le.
  intros [?|[? Hxy]] [?|[? Hyz]]; try (left; lia).
  right. split; [lia|]. auto.
Qed.

Lemma sortBy_sorted_id {A} (cmp : A -> A -> Z) l :
  StronglySorted (fun a b => cmp a b <= 0) l -> sortBy cmp l = l.
Proof.
  induction 1 as [|x l Hs IH Hall]; [done|].
  cbn [sortBy foldr]. fold (sortBy cmp l). rewrite IH.
  destruct Hall as [|y l' Hxy _]; [done|].
  simpl. by rewrite (proj2 (Z.leb_le _ _) Hxy).
Qed.

(** Sortedness only compares the elements of the list. *)
Lemma StronglySorted_within {A} (R S : A -> A -> Prop) l :
  (forall a b, In a l -> In b l -> R a b -> S a b) ->
  StronglySorted R l -> StronglySorted S l.
Proof.
  intros HRS Hs. induction Hs as [|x l Hs IH Hall]; constructor.
  - apply IH. intros a b Ha Hb. apply HRS; by right.
  - apply List.Forall_forall. intros y Hy. apply HRS; [by left|by right|].
    by apply (proj1 (List.Forall_forall _ _) Hall).
Qed.

(** X4: Re-sorting a prioritized list changes nothing as long as the
    comparator's level [urlLevels.get(url) || 999] of every item in it is
    what it was when the list was sorted; in particular [prioritizeUrls]
    is idempotent for one crawler state. *)
Theorem prioritizeUrls_idempotent cr cr' urls :
  (forall item, In item urls -> sortLevel cr' item = sortLevel cr item) ->
  prioritizeUrls cr' (prioritizeUrls cr urls) = prioritizeUrls cr urls.
Proof.
  intros Hsame. apply sortBy_sorted_id.
  apply (StronglySorted_within (fun a b => compareItems cr a b <= 0)).
  - assert (Hin : forall a, In a (prioritizeUrls cr urls) -> In a urls).
    { intros a Ha. eapply Permutation_in; [apply prioritizeUrls_Permutation|done]. }
    intros a b Ha%Hin Hb%Hin. rewrite !compareItems_le.
    by rewrite (Hsame a Ha), (Hsame b Hb).
  - apply sortBy_sorted.
    + apply compareItems_total.
    + apply compareItems_trans.
Qed.

(** X1: The sort loses nothing: the result is a rearrangement of the pending
    items. *)
Theorem prioritizeUrls_rearranges cr urls : prioritizeUrls cr urls ≡ₚ urls.
Proof. apply prioritizeUrls_Permutation. Qed.

(** X2: The result is ordered by the level the comparator reads
    ([urlLevels.get(url) || 999]), ascending; within one such level no
    item without [isNavigation] stands before an item with it. *)
Theorem prioritizeUrls_ordered cr urls :
  StronglySorted
    (fun a b => sortLevel cr a < sortLevel cr b \/
                (sortLevel cr a = sortLevel cr b /\
                 (isNavigation b = true -> isNavigation a = true)))
    (prioritizeUrls cr urls).
Proof. apply prioritizeUrls_sorted. Qed.

(** X3: Ties keep their order: the items of one comparator level and one
    [isNavigation] value come out in the order they came in. *)
Theorem prioritizeUrls_keeps_ties cr urls lvl nav :
  List.filter (fun a => (sortLevel cr a =? lvl) && bool_decide (isNavigation a = nav))
              (prioritizeUrls cr urls)
  = List.filter (fun a => (sortLevel cr a =? lvl) && bool_decide (isNavigation a = nav))
                urls.
Proof. apply (prioritizeUrls_stable cr urls lvl nav). Qed.

(** ** Invariants of a crawl *)

(** [levelCounts.get(level) || 0] *)
Definition countAt (cr : Crawler) (L : Z) : Z :=
  num_or (levelCounts cr !! L) 0.

(** The number of URLs registered with level [L]. *)
Definition registeredAt (cr : Crawler) (L : Z) : nat :=
  size (filter (fun kv : string * Z => kv.2 = L) (urlLevels cr)).

(** The deepest level a crawl can register: [maxLevel], and 1 for the seed. *)
Definition levelBound (cr : Crawler) : Z := Z.max 1 (maxLevel (config cr)).

Lemma registeredAt_insert (m : gmap string Z) u l L :
  m !! u = None ->
  size (filter (fun kv : string * Z => kv.2 = L) (<[u := l]> m))
  = if decide (l = L)
    then S (size (filter (fun kv : string * Z => kv.2 = L) m))
    else size (filter (fun kv : string * Z => kv.2 = L) m).
Proof.
  intros Hu. rewrite map_filter_insert. simpl. case_decide.
  - rewrite map_size_insert_None; [done|].
    apply map_lookup_filter_None_2. by left.
  - by rewrite delete_id.
Qed.

Lemma determineLevel_stable cr cr' u parent :
  config cr' = config cr ->
  (forall p, parent = Some p -> urlLevels cr' !! p = urlLevels cr !! p) ->
  determineLevel cr' u parent = determineLevel cr u parent.
Proof.
  intros Hc Hp. unfold determineLevel, isLegalPage. rewrite Hc.
  destruct (existsb _ _); [done|].
  destruct parent as [p|]; simpl; [|done].
  by rewrite (Hp p eq_refl).
Qed.

Section Invariants.
Variable pathname : string -> option string.

(** A pending item was found on a visited page and its level is within
    bounds. *)
Definition pending_ok (s : Scraper) (item : WorkItem) : Prop :=
  0 <= determineLevel (navCrawler s) (url item) (parentUrl item)
    <= levelBound (navCrawler s) /\
  (forall p, parentUrl item = Some p -> p ∈ visitedUrls s).

Record crawl_inv (s : Scraper) : Prop := {
  inv_visited u :
    u ∈ visitedUrls s <-> is_Some (urlLevels (navCrawler s) !! u);
  inv_levels u L :
    urlLevels (navCrawler s) !! u = Some L -> 0 <= L <= levelBound (navCrawler s);
  inv_counts L :
    countAt (navCrawler s) L = Z.of_nat (registeredAt (navCrawler s) L);
  inv_pending : Forall (pending_ok s) (pendingUrls s)
}.

Lemma pending_ok_ext s s' item :
  config (navCrawler s') = config (navCrawler s) ->
  (forall p, p ∈ visitedUrls s -> p ∈ visitedUrls s') ->
  (forall p, p ∈ visitedUrls s ->
             urlLevels (navCrawler s') !! p = urlLevels (navCrawler s) !! p) ->
  pending_ok s item -> pending_ok s' item.
Proof.
  intros Hc Hv Hl [Hb Hp]. split.
  - unfold levelBound. rewrite Hc.
    rewrite (determineLevel_stable (navCrawler s)); [done|done|].
    intros p Hpar. apply Hl, Hp, Hpar.
  - intros p Hpar. apply Hv, Hp, Hpar.
Qed.

Lemma start_inv c baseUrl : crawl_inv (start c baseUrl).
Proof.
  split; simpl.
  - intros u. rewrite lookup_empty. split; [set_solver|by intros [? ?]].
  - intros u L. by rewrite lookup_empty.
  - intros L. unfold countAt, registeredAt. simpl.
    by rewrite lookup_empty, map_filter_empty, map_size_empty.
  - constructor; [|constructor]. split; [|done].
    unfold determineLevel, levelBound. simpl.
    destruct (isLegalPage _ _); lia.
Qed.

Lemma determineLevel_lower s u parent :
  crawl_inv s -> 0 <= determineLevel (navCrawler s) u parent.
Proof.
  intros Hinv. unfold determineLevel.
  destruct (isLegalPage _ _); [lia|].
  destruct (negb _); [lia|].
  destruct parent as [p|]; simpl; [|lia].
  destruct (urlLevels (navCrawler s) !! p) as [L|] eqn:HL; simpl; [|lia].
  pose proof (inv_levels s Hinv p L HL). destruct (L =? 0); lia.
Qed.

Lemma shouldCrawl_upper cr u parent :
  shouldCrawl cr u parent = true ->
  determineLevel cr u parent <= levelBound cr.
Proof.
  unfold shouldCrawl, levelBound.
  destruct (_ =? 0) eqn:H0; [apply Z.eqb_eq in H0; lia|].
  destruct (_ >? _) eqn:Hgt; [done|].
  rewrite Z.gtb_ltb in Hgt. apply Z.ltb_ge in Hgt. lia.
Qed.

(** What one link does to the scraper: nothing, or one item at the end
    of the queue. *)
Lemma processLink_shape pageUrl s link s' :
  processLink pathname pageUrl s link = Some s' ->
  config (navCrawler s') = config (navCrawler s) /\
  urlLevels (navCrawler s') = urlLevels (navCrawler s) /\
  levelCounts (navCrawler s') = levelCounts (navCrawler s) /\
  visitedUrls s' = visitedUrls s /\
  (pendingUrls s' = pendingUrls s \/
   (link.1 ∉ visitedUrls s) /\
   shouldCrawl (navCrawler s) link.1 (Some pageUrl) = true /\
   pendingUrls s' =
     (pendingUrls s ++
        [ {| url := link.1; parentUrl := Some pageUrl;
             level := determineLevel (navCrawler s) link.1 (Some pageUrl);
             isNavigation := link.2 |} ])%list).
Proof.
  unfold processLink. destruct link as [absoluteUrl isNav]. simpl.
  case_bool_decide as Hv; simpl; [intros [= <-]; tauto|].
  destruct (shouldCrawl _ _ _) eqn:Hs; [|intros [= <-]; tauto].
  destruct (_ =? 3).
  - destruct (shouldCrawlLevel3 _ _ _) as [[|]|]; simpl;
      [|intros [= <-]; tauto|done].
    unfold registerLevel3Page. destruct (getCategory _ _); simpl; [|done].
    intros [= <-]. simpl. repeat split; try done. by right.
  - intros [= <-]. simpl. repeat split; try done. by right.
Qed.

Lemma processLink_inv pageUrl s link s' :
  pageUrl ∈ visitedUrls s ->
  processLink pathname pageUrl s link = Some s' ->
  crawl_inv s -> crawl_inv s'.
Proof.
  intros Hpage Hstep Hinv.
  destruct (processLink_shape _ _ _ _ Hstep) as (Hc & Hl & Hn & Hv & Hpend).
  assert (Hext : forall item, pending_ok s item -> pending_ok s' item).
  { intros item. apply pending_ok_ext; [done| |]; intros p Hp.
    - by rewrite Hv.
    - by rewrite Hl. }
  destruct Hinv as [Ha Hb Hcnt Hp]. split.
  - intros u. rewrite Hv, Hl. apply Ha.
  - intros u L. unfold levelBound. rewrite Hl, Hc. apply Hb.
  - intros L. unfold countAt, registeredAt. rewrite Hn, Hl. apply Hcnt.
  - destruct Hpend as [->|(Hnv & Hs & ->)].
    + eapply Forall_impl; [exact Hp|]. exact Hext.
    + apply Forall_app. split; [eapply Forall_impl; [exact Hp|exact Hext]|].
      constructor; [|constructor]. apply Hext. split; simpl.
      * split; [by apply determineLevel_lower|by apply shouldCrawl_upper].
      * by intros p [= <-].
Qed.

Lemma processLinks_inv pageUrl links s :
  pageUrl ∈ visitedUrls s -> crawl_inv s ->
  crawl_inv (processLinks pathname pageUrl s links).
Proof.
  revert s. induction links as [|link links IH]; intros s Hpage Hinv; simpl; [done|].
  destruct (processLink _ _ _ _) as [s1|] eqn:Hs1; [|done].
  apply IH.
  - destruct (processLink_shape _ _ _ _ Hs1) as (_ & _ & _ & -> & _). done.
  - by eapply processLink_inv.
Qed.

Lemma visit_inv s item :
  crawl_inv s -> pending_ok s item -> crawl_inv (visit s item).2.
Proof.
  intros Hinv [Hbound Hpar]. unfold visit.
  case_bool_decide as Hv; [done|]. simpl.
  set (u := url item) in *.
  set (l := determineLevel (navCrawler s) u (parentUrl item)) in *.
  assert (Hnone : urlLevels (navCrawler s) !! u = None).
  { destruct (urlLevels (navCrawler s) !! u) eqn:Hu; [|done].
    exfalso. apply Hv, (inv_visited s Hinv). eauto. }
  destruct Hinv as [Ha Hb Hcnt Hp]. split; simpl.
  - intros v. rewrite lookup_insert, elem_of_union, elem_of_singleton.
    case_decide as Hv'.
    + subst v. split; [eauto|by left].
    + rewrite <- Ha. split; [intros [?|?]; [congruence|done]|by right].
  - intros v L. rewrite lookup_insert. case_decide.
    + intros [= <-]. exact Hbound.
    + apply Hb.
  - intros L. unfold countAt, registeredAt. simpl.
    rewrite registeredAt_insert by done.
    specialize (Hcnt L). unfold countAt, registeredAt in Hcnt.
    rewrite lookup_insert. case_decide as HL.
    + subst L. simpl. fold (countAt (navCrawler s) l) in Hcnt |- *.
      rewrite Hcnt.
      destruct (_ =? 0) eqn:H0; [apply Z.eqb_eq in H0; lia|lia].
    + done.
  - eapply Forall_impl; [exact Hp|]. intros item'.
    apply pending_ok_ext; simpl; [done| |].
    + intros p Hpv. apply elem_of_union. by right.
    + intros p Hpv. rewrite lookup_insert_ne; [done|]. intros ->. done.
Qed.

Lemma iteration_inv links s : crawl_inv s -> crawl_inv (iteration pathname links s).
Proof.
  intros Hinv. unfold iteration.
  destruct (dequeue s) as [[item s1]|] eqn:Hd; [|done].
  unfold dequeue in Hd.
  destruct (prioritizeUrls (navCrawler s) (pendingUrls s)) as [|item' rest] eqn:Hsort;
    [done|].
  injection Hd as -> <-.
  assert (Hall : Forall (pending_ok s) (item :: rest)).
  { rewrite <- Hsort, prioritizeUrls_Permutation. apply (inv_pending s Hinv). }
  apply Forall_cons in Hall as [Hitem Hrest].
  set (s1 := {| navCrawler := navCrawler s; visitedUrls := visitedUrls s;
                pendingUrls := rest |}).
  assert (Hinv1 : crawl_inv s1).
  { destruct Hinv as [Ha Hb Hcnt Hp]. by split. }
  pose proof (visit_inv s1 item Hinv1 Hitem) as Hinv2.
  assert (Hvis : forall lvl s2, visit s1 item = (Some lvl, s2) ->
                                url item ∈ visitedUrls s2).
  { unfold visit. case_bool_decide; [done|]. intros lvl s2 [= _ <-]. simpl.
    apply elem_of_union. left. by apply elem_of_singleton. }
  destruct (visit s1 item) as [[lvl|] s2]; simpl in Hinv2; [|done].
  apply processLinks_inv; [by eapply Hvis|done].
Qed.

Lemma reachable_inv c baseUrl s : reachable pathname c baseUrl s -> crawl_inv s.
Proof.
  induction 1 as [|s links _ IH]; [apply start_inv|by apply iteration_inv].
Qed.

Lemma reachable_config c baseUrl s :
  reachable pathname c baseUrl s -> config (navCrawler s) = mkConfig c.
Proof.
  induction 1 as [|s links _ IH]; [done|].
  unfold iteration. destruct (dequeue s) as [[item s1]|] eqn:Hd; [|done].
  apply dequeue_state in Hd as [Hcr _].
  assert (H2 : config (navCrawler (visit s1 item).2) = mkConfig c).
  { unfold visit. case_bool_decide; simpl; by rewrite Hcr. }
  destruct (visit s1 item) as [[lvl|] s2]; simpl in H2; [|done].
  revert s2 H2. induction links as [|link links IHl]; intros s2 H2; simpl; [done|].
  destruct (processLink _ _ _ _) as [s3|] eqn:Hs3; [|done].
  apply IHl. destruct (processLink_shape _ _ _ _ Hs3) as (-> & _). done.
Qed.

(** X5: In a crawl the registered URLs are exactly the visited ones. *)
Theorem crawl_registered_iff_visited c baseUrl s u :
  reachable pathname c baseUrl s ->
  (u ∈ visitedUrls s <-> is_Some (urlLevels (navCrawler s) !! u)).
Proof. intros Hr. apply (inv_visited s (reachable_inv _ _ _ Hr)). Qed.

(** X6: In a crawl no page is registered below level 0 or deeper than
    [maxLevel] (level 1, the seed's, is always possible). *)
Theorem crawl_level_bounded c baseUrl s u L :
  reachable pathname c baseUrl s ->
  urlLevels (navCrawler s) !! u = Some L ->
  0 <= L <= Z.max 1 (maxLevel (mkConfig c)).
Proof.
  intros Hr HL. rewrite <- (reachable_config _ _ _ Hr).
  exact (inv_levels s (reachable_inv _ _ _ Hr) u L HL).
Qed.

(** X7: In a crawl the visit counter of every level is the number of URLs
    registered with that level. *)
Theorem crawl_counts_registered c baseUrl s L :
  reachable pathname c baseUrl s ->
  countAt (navCrawler s) L = Z.of_nat (registeredAt (navCrawler s) L).
Proof. intros Hr. apply (inv_counts s (reachable_inv _ _ _ Hr)). Qed.

(** ** What the link loop enqueues *)

(** X8: A link to a legal page that has not been visited is always put at
    the end of the queue, with level 0: neither [maxLevel], nor a level
    limit, nor the category sample can keep it out. *)
Theorem legal_link_enqueued pageUrl s u nav :
  isLegalPage (navCrawler s) u = true ->
  u ∉ visitedUrls s ->
  processLink pathname pageUrl s (u, nav)
  = Some {| navCrawler := navCrawler s;
            visitedUrls := visitedUrls s;
            pendingUrls :=
              (pendingUrls s ++
                 [ {| url := u; parentUrl := Some pageUrl;
                      level := 0; isNavigation := nav |} ])%list |}.
Proof.
  intros Hlegal Hv. unfold processLink, shouldCrawl, determineLevel.
  rewrite Hlegal. simpl. by rewrite bool_decide_eq_false_2.
Qed.

(** X9: The limit of a level is a quota on visits, shared by all categories:
    once [levelCounts] of a (non-legal) level has reached a limit other
    than [-1], a link of that level is dropped, and so is any link whose
    level has no limit entry at all. *)
Theorem link_dropped_at_quota pageUrl s u nav :
  let cr := navCrawler s in
  let L := determineLevel cr u (Some pageUrl) in
  L <> 0 ->
  (levelLimits (config cr) !! L = None \/
   exists n, levelLimits (config cr) !! L = Some n /\ n <> -1 /\ n <= countAt cr L) ->
  processLink pathname pageUrl s (u, nav) = Some s.
Proof.
  intros cr L HL Hlim. unfold processLink. fold cr.
  assert (Hs : shouldCrawl cr u (Some pageUrl) = false).
  { unfold shouldCrawl. fold L.
    destruct (L =? 0) eqn:H0; [apply Z.eqb_eq in H0; done|].
    destruct (L >? _); [done|].
    destruct Hlim as [->|(n & -> & Hn & Hc)].
    - by rewrite bool_decide_eq_false_2.
    - rewrite bool_decide_eq_false_2 by congruence.
      fold (countAt cr L). apply Z.ltb_ge. lia. }
  rewrite Hs. by rewrite andb_false_r.
Qed.

(** ** The category buckets *)

Lemma processLink_crawler pageUrl s link s' :
  processLink pathname pageUrl s link = Some s' ->
  navCrawler s' = navCrawler s \/
  (shouldCrawlLevel3 pathname (navCrawler s) link.1 = Some true /\
   registerLevel3Page pathname (navCrawler s) link.1 = Some (navCrawler s')).
Proof.
  unfold processLink. destruct link as [absoluteUrl isNav]. simpl.
  destruct (_ && _); [|intros [= <-]; by left].
  destruct (_ =? 3); [|intros [= <-]; by left].
  destruct (shouldCrawlLevel3 _ _ _) as [[|]|]; simpl; [|intros [= <-]; by left|done].
  destruct (registerLevel3Page _ _ _) as [cr'|]; simpl; [|done].
  intros [= <-]. by right.
Qed.

(** A property of the crawler that [registerUrl] and a guarded
    [registerLevel3Page] keep holds throughout a crawl. *)
Lemma crawl_crawler_invariant (P : Crawler -> Prop) c baseUrl s :
  P (new c) ->
  (forall cr u p, P cr -> P (registerUrl cr u p).2) ->
  (forall cr u cr', P cr ->
     shouldCrawlLevel3 pathname cr u = Some true ->
     registerLevel3Page pathname cr u = Some cr' -> P cr') ->
  reachable pathname c baseUrl s -> P (navCrawler s).
Proof.
  intros Hnew Hreg Hsample. induction 1 as [|s links _ IH]; [done|].
  unfold iteration. destruct (dequeue s) as [[item s1]|] eqn:Hd; [|done].
  apply dequeue_state in Hd as [Hcr _].
  assert (H2 : P (navCrawler (visit s1 item).2)).
  { unfold visit. case_bool_decide; simpl; rewrite Hcr; [done|apply Hreg, IH]. }
  destruct (visit s1 item) as [[lvl|] s2]; simpl in H2; [|done].
  revert s2 H2. induction links as [|link links IHl]; intros s2 H2; simpl; [done|].
  destruct (processLink _ _ _ _) as [s3|] eqn:Hs3; [|done].
  apply IHl. apply processLink_crawler in Hs3 as [->|[Hok Hr]]; [done|].
  by eapply Hsample.
Qed.

(** X10: Every URL kept in a category's bucket belongs to that category. *)
Theorem crawl_buckets_sound c baseUrl s category pages u :
  reachable pathname c baseUrl s ->
  categoryPages (navCrawler s) !! category = Some pages ->
  u ∈ pages ->
  getCategory pathname u = Some category.
Proof.
  intros Hr. revert category pages u.
  apply (crawl_crawler_invariant
    (fun cr => forall category pages u,
       categoryPages cr !! category = Some pages -> u ∈ pages ->
       getCategory pathname u = Some category) c baseUrl s); [| | |done].
  - intros category pages u. simpl. by rewrite lookup_empty.
  - intros cr v p IH. exact IH.
  - intros cr v cr' IH _ Hreg category pages u.
    unfold registerLevel3Page in Hreg.
    destruct (getCategory pathname v) as [cat|] eqn:Hcat; simpl in Hreg; [|done].
    injection Hreg as <-. simpl. rewrite lookup_insert. case_decide as Hc.
    + subst cat. intros [= <-]. rewrite elem_of_app, list_elem_of_singleton.
      intros [Hin| ->]; [|done].
      destruct (categoryPages cr !! category) as [old|] eqn:Hold; simpl in Hin.
      * by eapply IH.
      * by apply elem_of_nil in Hin.
    + apply IH.
Qed.

(** X11: With a positive [levelLimits[3]] no category bucket of a crawl ever
    holds more URLs than that limit. *)
Theorem crawl_buckets_bounded c baseUrl s n category :
  levelLimits (mkConfig c) !! 3 = Some n -> 1 <= n ->
  reachable pathname c baseUrl s ->
  bucketSize (navCrawler s) category <= n.
Proof.
  intros Hlim Hn Hr.
  destruct (crawl_bucket_bounded pathname c baseUrl s n Hlim Hn Hr) as [_ Hb].
  apply Hb.
Qed.

End Invariants.

(** ** Trailing slashes *)

Fixpoint endsWithSlash (s : string) : bool :=
  match s with
  | EmptyString => false
  | String c EmptyString => Ascii.eqb c "/"
  | String _ rest => endsWithSlash rest
  end.

Lemma stripTrailingSlash_slash h : stripTrailingSlash (h +:+ "/") = h.
Proof.
  induction h as [|c h IH]; [done|].
  destruct h as [|c' h']; [done|].
  change (stripTrailingSlash (String c (String c' h') +:+ "/"))
    with (String c (stripTrailingSlash (String c' h' +:+ "/"))).
  by rewrite IH.
Qed.

Lemma stripTrailingSlash_id h : endsWithSlash h = false -> stripTrailingSlash h = h.
Proof.
  induction h as [|c h IH]; [done|].
  destruct h as [|c' h'].
  - simpl. by intros ->.
  - intros Hh.
    change (stripTrailingSlash (String c (String c' h')))
      with (String c (stripTrailingSlash (String c' h'))).
    by rewrite IH.
Qed.

(** X12: Two links whose resolved [href]s differ by one final slash are the
    same page for the crawl ([visitedUrls] is keyed by the normalized
    URL); only one slash is taken off. *)
Theorem normalizeUrl_trailing_slash href u1 b1 u2 b2 h :
  href u1 b1 = Some h ->
  href u2 b2 = Some (h +:+ "/") ->
  endsWithSlash h = false ->
  normalizeUrl href u1 b1 = Some h /\ normalizeUrl href u2 b2 = Some h.
Proof.
  intros H1 H2 Hh. unfold normalizeUrl. rewrite H1, H2. simpl.
  by rewrite stripTrailingSlash_slash, stripTrailingSlash_id.
Qed.

(** ** Categories *)

Fixpoint noSlash (s : string) : bool :=
  match s with
  | EmptyString => true
  | String c rest => negb (Ascii.eqb c "/") && noSlash rest
  end.

Lemma append_empty_r s : s +:+ EmptyString = s.
Proof.
  induction s as [|c s IH]; [done|].
  change (String c (s +:+ EmptyString) = String c s). by rewrite IH.
Qed.

Lemma split_no_slash a : noSlash a = true -> split "/" a = [a].
Proof.
  induction a as [|c a IH]; [done|]. simpl.
  intros [Hc Ha]%andb_true_iff. apply negb_true_iff in Hc. rewrite Hc.
  by rewrite IH.
Qed.

Lemma split_segment a r :
  noSlash a = true -> split "/" (a +:+ String "/" r) = a :: split "/" r.
Proof.
  induction a as [|c a IH]; [done|]. simpl.
  intros [Hc Ha]%andb_true_iff. apply negb_true_iff in Hc. rewrite Hc.
  by rewrite IH.
Qed.

(** X13: The category is made of the first two path segments only: whatever
    follows them, all pages below [/a/b] fall into the category [a/b]. *)
Theorem getCategory_two_segments pathname u a b tail :
  nonempty a = true -> nonempty b = true ->
  noSlash a = true -> noSlash b = true ->
  tail = EmptyString \/ (exists r, tail = String "/" r) ->
  pathname u = Some (String "/" (a +:+ String "/" (b +:+ tail))) ->
  getCategory pathname u = Some (a +:+ "/" +:+ b).
Proof.
  intros Ha Hb Hsa Hsb Htail Hp. unfold getCategory. rewrite Hp. simpl.
  rewrite split_segment by done.
  assert (Hsplit : exists rest, split "/" (b +:+ tail) = b :: rest).
  { destruct Htail as [->|[r ->]].
    - exists []. rewrite append_empty_r. by apply split_no_slash.
    - eexists. by apply split_segment. }
  destruct Hsplit as [rest ->].
  rewrite filter_cons_False by (simpl; tauto).
  rewrite filter_cons_True by (by rewrite Ha).
  rewrite filter_cons_True by (by rewrite Hb).
  simpl. f_equal. destruct a; [done|]. done.
Qed.

(** ** Worked examples *)

(** The crawl after the seed page, which links to [products] in its
    navigation and to [impressum] in its footer. *)
Definition afterSeed : Scraper :=
  iteration Examples.pathname [(products, true); (impressum, false)]
    (start defaults root).

Lemma afterSeed_reachable : reachable Examples.pathname defaults root afterSeed.
Proof. apply reach_iter, reach_start. Qed.

Lemma prioritizeUrls_idempotent_witness :
  let cr := navCrawler afterSeed in
  let cr' := (registerUrl cr "https://example.com/contact" (Some root)).2 in
  let queue := [ {| url := impressum; parentUrl := Some root; level := 0;
                    isNavigation := false |};
                 {| url := products; parentUrl := Some root; level := 2;
                    isNavigation := true |};
                 {| url := root; parentUrl := Some products; level := 2;
                    isNavigation := true |} ] in
  prioritizeUrls cr' (prioritizeUrls cr queue) = prioritizeUrls cr queue.
Proof.
  intros cr cr' queue.
  apply (prioritizeUrls_idempotent cr cr' queue).
  intros item [<-|[<-|[<-|[]]]]; reflexivity.
Defined.

Lemma crawl_registered_iff_visited_witness :
  root ∈ visitedUrls afterSeed <-> is_Some (urlLevels (navCrawler afterSeed) !! root).
Proof.
  apply (crawl_registered_iff_visited Examples.pathname defaults root afterSeed root).
  apply reach_iter, reach_start.
Defined.

Lemma crawl_level_bounded_witness : 0 <= 1 <= Z.max 1 (maxLevel (mkConfig defaults)).
Proof.
  apply (crawl_level_bounded Examples.pathname defaults root afterSeed root 1).
  - apply reach_iter, reach_start.
  - vm_compute. reflexivity.
Defined.

Lemma crawl_counts_registered_witness :
  countAt (navCrawler afterSeed) 1 = Z.of_nat (registeredAt (navCrawler afterSeed) 1).
Proof.
  apply (crawl_counts_registered Examples.pathname defaults root afterSeed 1).
  apply reach_iter, reach_start.
Defined.

Lemma link_dropped_at_quota_witness :
  let s := {| navCrawler :=
                runOps Examples.pathname (new defaults)
                  [OpRegisterUrl root None;
                   OpRegisterUrl "https://example.com/en" (Some root);
                   OpRegisterUrl "https://example.com/en/products/a"
                                 (Some "https://example.com/en")];
              visitedUrls := ∅;
              pendingUrls := [] |} in
  processLink Examples.pathname "https://example.com/en" s
              ("https://example.com/de/shop/b", true) = Some s.
Proof.
  intros s.
  apply (link_dropped_at_quota Examples.pathname "https://example.com/en" s
           "https://example.com/de/shop/b" true).
  - vm_compute. discriminate.
  - right. exists 1. vm_compute. repeat split; discriminate.
Defined.

Lemma crawl_buckets_sound_witness :
  getCategory Examples.pathname "https://example.com/en/products/a"
  = Some "en/products".
Proof.
  apply (crawl_buckets_sound Examples.pathname defaults root
           (iteration Examples.pathname [("https://example.com/en/products/a", true)]
              (iteration Examples.pathname [("https://example.com/en", true)]
                 (start defaults root)))
           "en/products" ["https://example.com/en/products/a"]).
  - apply reach_iter, reach_iter, reach_start.
  - vm_compute. reflexivity.
  - apply list_elem_of_singleton. reflexivity.
Defined.

Lemma normalizeUrl_trailing_slash_witness :
  let href := fun u b : string => Some u in
  normalizeUrl href "https://example.com/shop" root = Some "https://example.com/shop" /\
  normalizeUrl href "https://example.com/shop/" root = Some "https://example.com/shop".
Proof.
  intros href.
  apply (normalizeUrl_trailing_slash href "https://example.com/shop" root
           "https://example.com/shop/" root "https://example.com/shop").
  - reflexivity.
  - reflexivity.
  - reflexivity.
Defined.

Lemma crawl_buckets_bounded_witness :
  bucketSize
    (navCrawler
       (iteration Examples.pathname [("https://example.com/en/products/a", true);
                                     ("https://example.com/en/products/b", true)]
          (iteration Examples.pathname [("https://example.com/en", true)]
             (start defaults root))))
    "en/products" <= 1.
Proof.
  apply (crawl_buckets_bounded Examples.pathname defaults root _ 1 "en/products").
  - reflexivity.
  - lia.
  - apply reach_iter, reach_iter, reach_start.
Defined.

Lemma getCategory_two_segments_witness :
  getCategory Examples.pathname "https://example.com/en/products/shirts/42"
  = Some "en/products".
Proof.
  apply (getCategory_two_segments Examples.pathname
           "https://example.com/en/products/shirts/42" "en" "products" "/shirts/42").
  - reflexivity.
  - reflexivity.
  - reflexivity.
  - reflexivity.
  - right. by exists "shirts/42".
  - reflexivity.
Defined.

Lemma legal_link_enqueued_witness :
  processLink Examples.pathname root (start defaults root) (impressum, false)
  = Some {| navCrawler := navCrawler (start defaults root);
            visitedUrls := visitedUrls (start defaults root);
            pendingUrls :=
              (pendingUrls (start defaults root) ++
                 [ {| url := impressum; parentUrl := Some root;
                      level := 0; isNavigation := false |} ])%list |}.
Proof.
  apply (legal_link_enqueued Examples.pathname root (start defaults root)
           impressum false).
  - vm_compute. reflexivity.
  - vm_compute. discriminate.
Defined.

End CrawlFacts.

(** * Further properties of the downloader *)

Module JobFacts.
Import Downloader DownloaderFacts.

(** ** The 31-multiplier hash behind the fallback file names *)

(** The hash without the 32-bit wrap-around:
    [h * 31 ^ n + c1 * 31 ^ (n - 1) + ... + cn]. *)
Fixpoint hash31 (str : string) (h : Z) : Z :=
  match str with
  | EmptyString => h
  | String c rest => hash31 rest (31 * h + Z.of_N (N_of_ascii c))
  end.

Lemma toInt32_mod z : toInt32 z mod 2 ^ 32 = z mod 2 ^ 32.
Proof.
  unfold toInt32. destruct (_ <? _).
  - apply Z.mod_mod. lia.
  - rewrite <- Zminus_mod_idemp_r, Z.mod_same by lia.
    rewrite Z.sub_0_r. apply Z.mod_mod. lia.
Qed.

Lemma toInt32_eq a b : a mod 2 ^ 32 = b mod 2 ^ 32 -> toInt32 a = toInt32 b.
Proof. intros Hab. unfold toInt32. by rewrite Hab. Qed.

Lemma toInt32_range z : - 2 ^ 31 <= toInt32 z < 2 ^ 31.
Proof.
  unfold toInt32. pose proof (Z.mod_pos_bound z (2 ^ 32) ltac:(lia)).
  destruct (_ <? _) eqn:Hlt; [apply Z.ltb_lt in Hlt|apply Z.ltb_ge in Hlt]; lia.
Qed.

Lemma hash31_mod str a b :
  a mod 2 ^ 32 = b mod 2 ^ 32 ->
  hash31 str a mod 2 ^ 32 = hash31 str b mod 2 ^ 32.
Proof.
  revert a b. induction str as [|c rest IH]; intros a b Hab; simpl; [done|].
  apply IH.
  rewrite <- (Zplus_mod_idemp_l (31 * a)), <- (Zplus_mod_idemp_l (31 * b)).
  rewrite <- (Zmult_mod_idemp_r a), <- (Zmult_mod_idemp_r b). by rewrite Hab.
Qed.

Lemma simpleHash_loop_hash31 str h :
  simpleHash_loop str (toInt32 h) = toInt32 (hash31 str h).
Proof.
  revert h. induction str as [|c rest IH]; intros h; simpl; [done|].
  rewrite IH. apply toInt32_eq, hash31_mod.
  set (k := Z.of_N (N_of_ascii c)).
  rewrite <- (Zplus_mod_idemp_l _ k), <- (Zplus_mod_idemp_l (31 * h) k).
  f_equal. f_equal.
  rewrite <- Zminus_mod_idemp_l, toInt32_mod.
  rewrite Zminus_mod_idemp_l.
  rewrite <- Zminus_mod_idemp_r, toInt32_mod, Zminus_mod_idemp_r.
  rewrite <- (Zminus_mod_idemp_l (toInt32 h * 2 ^ 5)).
  rewrite <- Zmult_mod_idemp_l, toInt32_mod, Zmult_mod_idemp_l.
  rewrite Zminus_mod_idemp_l. f_equal. lia.
Qed.

(** X14: [simpleHash]'s number is the 31-multiplier polynomial hash of the
    character codes, wrapped to a signed 32-bit integer. *)
Theorem simpleHash_loop_polynomial str :
  simpleHash_loop str 0 = toInt32 (hash31 str 0) /\
  - 2 ^ 31 <= simpleHash_loop str 0 < 2 ^ 31.
Proof.
  assert (Heq : simpleHash_loop str 0 = toInt32 (hash31 str 0)).
  { change 0 with (toInt32 0) at 1. apply simpleHash_loop_hash31. }
  split; [done|]. rewrite Heq. apply toInt32_range.
Qed.

Lemma simpleHash_loop_range str : - 2 ^ 31 <= simpleHash_loop str 0 < 2 ^ 31.
Proof.
  change (simpleHash_loop str 0) with (simpleHash_loop str (toInt32 0)).
  rewrite simpleHash_loop_hash31. apply toInt32_range.
Qed.

(** Reading a base-36 numeral back. *)
Definition value36 (c : ascii) : Z :=
  let n := Z.of_N (N_of_ascii c) in
  if n <? 58 then n - 48 else n - 87.

Fixpoint parse36 (s : string) (acc : Z) : Z :=
  match s with
  | EmptyString => acc
  | String c rest => parse36 rest (acc * 36 + value36 c)
  end.

(** [0-9a-z] *)
Definition isDigit36 (c : ascii) : bool :=
  let n := Z.of_N (N_of_ascii c) in
  ((48 <=? n) && (n <=? 57)) || ((97 <=? n) && (n <=? 122)).

Fixpoint allDigits36 (s : string) : bool :=
  match s with
  | EmptyString => true
  | String c rest => isDigit36 c && allDigits36 rest
  end.

Lemma digit36_code d :
  0 <= d < 36 ->
  Z.of_N (N_of_ascii (digit36 d)) = if d <? 10 then 48 + d else 87 + d.
Proof.
  intros Hd. unfold digit36.
  destruct (d <? 10) eqn:Hlt; [apply Z.ltb_lt in Hlt|apply Z.ltb_ge in Hlt];
    rewrite N_ascii_embedding by lia; lia.
Qed.

Lemma value36_digit36 d : 0 <= d < 36 -> value36 (digit36 d) = d.
Proof.
  intros Hd. unfold value36. rewrite digit36_code by done.
  destruct (d <? 10) eqn:Hlt; [apply Z.ltb_lt in Hlt|apply Z.ltb_ge in Hlt].
  - rewrite (proj2 (Z.ltb_lt _ _)) by lia. lia.
  - rewrite (proj2 (Z.ltb_ge _ _)) by lia. lia.
Qed.

Lemma isDigit36_digit36 d : 0 <= d < 36 -> isDigit36 (digit36 d) = true.
Proof.
  intros Hd. unfold isDigit36. rewrite digit36_code by done.
  destruct (d <? 10) eqn:Hlt; [apply Z.ltb_lt in Hlt|apply Z.ltb_ge in Hlt].
  - apply orb_true_iff. left. apply andb_true_iff. split; apply Z.leb_le; lia.
  - apply orb_true_iff. right. apply andb_true_iff. split; apply Z.leb_le; lia.
Qed.

Lemma toString36_from_spec fuel n acc :
  0 <= n < 36 ^ Z.of_nat (S fuel) ->
  parse36 (toString36_from fuel n acc) 0 = parse36 acc n /\
  (String.length (toString36_from fuel n acc)
     <= S fuel + String.length acc)%nat /\
  (String.length acc < String.length (toString36_from fuel n acc))%nat /\
  (allDigits36 acc = true -> allDigits36 (toString36_from fuel n acc) = true).
Proof.
  revert n acc. induction fuel as [|fuel IH]; intros n acc Hn.
  - assert (Hn36 : 0 <= n < 36) by (simpl in Hn; lia).
    simpl. rewrite Z.mod_small, value36_digit36, isDigit36_digit36 by done.
    repeat split; try lia. done.
  - cbn [toString36_from].
    pose proof (Z.mod_pos_bound n 36 ltac:(lia)) as Hmod.
    pose proof (Z.div_mod n 36 ltac:(lia)) as Hdm.
    destruct (n / 36 =? 0) eqn:Hq.
    + apply Z.eqb_eq in Hq. simpl.
      rewrite value36_digit36, isDigit36_digit36 by done.
      repeat split; try lia; [f_equal; lia|done].
    + apply Z.eqb_neq in Hq.
      assert (Hdiv : 0 <= n / 36 < 36 ^ Z.of_nat (S fuel)).
      { split; [apply Z.div_pos; lia|].
        apply Z.div_lt_upper_bound; [lia|].
        replace (Z.of_nat (S (S fuel))) with (1 + Z.of_nat (S fuel)) in Hn by lia.
        rewrite Z.pow_add_r in Hn by lia. lia. }
      destruct (IH (n / 36) (String (digit36 (n mod 36)) acc) Hdiv)
        as (Hp & Hlen & Hgt & Hall).
      rewrite Hp. simpl in *. rewrite value36_digit36 by done.
      repeat split; try lia; [f_equal; lia|].
      intros Hacc. apply Hall. by rewrite isDigit36_digit36, Hacc.
Qed.

(** X15: The fallback name carries the absolute value of the 32-bit hash as a
    base-36 numeral of one to seven characters [0-9a-z]; two URLs get
    the same name exactly when their hashes agree up to sign. *)
Theorem simpleHash_base36 str :
  parse36 (simpleHash str) 0 = Z.abs (simpleHash_loop str 0) /\
  (1 <= String.length (simpleHash str) <= 7)%nat /\
  allDigits36 (simpleHash str) = true /\
  (forall str', simpleHash str = simpleHash str' <->
                Z.abs (simpleHash_loop str 0) = Z.abs (simpleHash_loop str' 0)).
Proof.
  assert (Hrange : forall t, 0 <= Z.abs (simpleHash_loop t 0) < 36 ^ Z.of_nat 7).
  { intros t. pose proof (simpleHash_loop_range t) as Hr.
    change (36 ^ Z.of_nat 7) with 78364164096. lia. }
  assert (Hparse : forall t, parse36 (simpleHash t) 0 = Z.abs (simpleHash_loop t 0)).
  { intros t. unfold simpleHash.
    by destruct (toString36_from_spec 6 _ EmptyString (Hrange t)) as (-> & _). }
  destruct (toString36_from_spec 6 _ EmptyString (Hrange str))
    as (_ & Hlen & Hgt & Hall).
  fold (simpleHash str) in Hlen, Hgt, Hall. simpl in Hlen, Hgt.
  split; [apply Hparse|]. split; [lia|]. split; [by apply Hall|].
  intros str'. split.
  - intros Heq. by rewrite <- !Hparse, Heq.
  - intros Heq. unfold simpleHash. by rewrite Heq.
Qed.

Section Jobs.
Context `{NodeApi}.

(** ** Only the ['end'] handler writes *)

(** X16: A call leaves a trace in the registry or on disk only through an
    ['end'] event on an accepted response.  Whatever else is delivered
    (an HTTP status error, a declared length above the ceiling, chunks
    that pass the ceiling, request errors, timeouts, nothing at all), the
    three maps, the files written, [stats.downloaded] and
    [stats.totalSize] are as before, and the call resolves only if the URL
    was registered already. *)
Theorem only_end_registers d w u baseUrl resp :
  accepted (maxSize d) resp = false \/ End ∉ responseEvents resp ->
  let '(o, d', w') := downloadImage d w u baseUrl resp in
  hashToPath d' = hashToPath d /\
  urlToHash d' = urlToHash d /\
  urlToPath d' = urlToPath d /\
  written w' = written w /\
  downloaded (stats d') = downloaded (stats d) /\
  totalSize (stats d') = totalSize (stats d) /\
  total (stats d') = total (stats d) + 1 /\
  forall r, o = Some (Resolved r) -> cached r = true.
Proof.
  intros Hno. pose proof (downloadImage_transfer d w u baseUrl resp) as Ht.
  destruct (downloadImage d w u baseUrl resp) as [[o d'] w'].
  destruct Ht as [p Hu|o d' w' Hu Hsbf Hw _ Hnr
                 |lp data n da wa o1 d1 w1 o d' w' Hu Hacc Hin].
  - repeat split; try done. by intros r [= <-].
  - destruct Hsbf. repeat split; try done. intros r Hr. by destruct (Hnr r).
  - destruct Hno as [Hno|Hno]; [congruence|done].
Qed.

(** ** Bookkeeping of a job *)

(** The bytes written to disk by a job. *)
Definition bytesWritten (w : World) : Z :=
  foldr (fun f acc => Z.of_nat (length f.2) + acc) 0 (written w).

Lemma bytesWritten_snoc w w' p data :
  written w' = (written w ++ [(p, data)])%list ->
  bytesWritten w' = bytesWritten w + Z.of_nat (length data).
Proof.
  unfold bytesWritten. intros ->. induction (written w) as [|f l IH]; simpl; lia.
Qed.

Lemma JsMap_set_length {V} (m : JsMap.t string V) k v :
  JsMap.get m k = None -> length (JsMap.set m k v) = S (length m).
Proof.
  induction m as [|[k' v'] m IH]; simpl; [done|].
  case_decide; [done|]. intros Hg. simpl. by rewrite IH.
Qed.

Record accounted (st : Downloader * World) : Prop := {
  acc_downloaded : downloaded (stats st.1) = Z.of_nat (length (written st.2));
  acc_hashes : length (JsMap.entries (hashToPath st.1)) = length (written st.2);
  acc_totalSize : bytesWritten st.2 <= totalSize (stats st.1);
  acc_counters :
    0 <= duplicates (stats st.1) /\ 0 <= failed (stats st.1) /\
    downloaded (stats st.1) + duplicates (stats st.1) <= total (stats st.1);
  acc_sizes :
    0 <= maxSize st.1 ->
    Forall (fun f => Z.of_nat (length f.2) <= maxSize st.1) (written st.2);
  acc_backed h p :
    JsMap.get (hashToPath st.1) h = Some p ->
    exists data, (p, data) ∈ written st.2 /\ md5hex data = h
}.

Lemma fresh_accounted c existingDirs : accounted (fresh c existingDirs).
Proof. split; simpl; done. Qed.

Lemma transfer_accounted d w u resp o d' w' :
  transfer d w u resp o d' w' -> accounted (d, w) -> accounted (d', w').
Proof.
  intros Ht [Hdl Hh Hts Hc Hsz Hb]; simpl in *.
  destruct Ht as [p Hu|o d' w' Hu Hsbf Hw _ _
                 |lp data n da wa o1 d1 w1 o d' w' Hu _ _ Hsbf Hwa _ [Hlen Hmax]
                    Hend Hsbf1 Hw1 _ _].
  - split; simpl; try done. lia.
  - destruct Hsbf; simpl in *.
    split; simpl; unfold bytesWritten in *;
      rewrite ?Hw, ?sbf_hashToPath0, ?sbf_maxSize0; try done; lia.
  - destruct Hsbf, Hsbf1; simpl in *.
    unfold onEnd in Hend. rewrite sbf_hashToPath0 in Hend.
    destruct (JsMap.get (hashToPath d) (md5hex data)) as [p|] eqn:Hget;
      injection Hend as <- <- <-; simpl in *.
    + split; simpl; unfold bytesWritten in *;
        rewrite ?Hw1, ?Hwa, ?sbf_hashToPath1, ?sbf_maxSize1, ?sbf_maxSize0;
        try done; lia.
    + assert (Hbw : bytesWritten w' = bytesWritten w + Z.of_nat (length data)).
      { apply (bytesWritten_snoc w _ lp data). by rewrite Hw1, Hwa. }
      split; simpl; rewrite ?Hw1, ?Hwa, ?sbf_hashToPath1, ?sbf_hashToPath0,
        ?sbf_maxSize1, ?sbf_maxSize0.
      * rewrite length_app. simpl. lia.
      * unfold JsMap.entries in *. rewrite JsMap_set_length by done.
        rewrite length_app. simpl. lia.
      * rewrite Hbw. lia.
      * lia.
      * intros Hm. apply Forall_app. split; [by apply Hsz|].
        constructor; [|constructor]. simpl. by apply Hmax.
      * intros h p. rewrite JsMapFacts.get_set. case_decide as Heq.
        -- intros [= <-]. exists data. split; [|done].
           apply elem_of_app. right. by apply list_elem_of_singleton.
        -- intros Hp. destruct (Hb h p Hp) as (data' & Hin & Hh').
           exists data'. split; [|done]. apply elem_of_app. by left.
Qed.

Lemma step_accounted st c : accounted st -> accounted (step st c).
Proof.
  intros Ha. destruct (step_transfer st c) as [o Ht].
  destruct st as [d w], (step (d, w) c) as [d' w']. by eapply transfer_accounted.
Qed.

Lemma run_accounted st calls : accounted st -> accounted (run st calls).
Proof.
  revert st. induction calls as [|c calls IH]; intros st Ha; simpl; [done|].
  by apply IH, step_accounted.
Qed.

Lemma step_total st c : total (stats (step st c).1) = total (stats st.1) + 1.
Proof.
  destruct (step_transfer st c) as [o Ht].
  by destruct (transfer_same _ _ _ _ _ _ _ Ht) as (_ & _ & ?).
Qed.

Lemma run_total st calls :
  total (stats (run st calls).1) = total (stats st.1) + Z.of_nat (length calls).
Proof.
  revert st. induction calls as [|c calls IH]; intros st; simpl; [lia|].
  rewrite IH, step_total. lia.
Qed.

(** X17: The statistics of a job: [total] is the number of calls;
    [downloaded] is the number of files written and of hashes registered;
    [totalSize] adds up the bytes counted by the ['data'] handler, which
    are at least the bytes written; a call counts at most once as
    downloaded or duplicate.  ([failed] counts handler runs, not calls.) *)
Theorem job_statistics c existingDirs calls :
  let st := run (fresh c existingDirs) calls in
  total (stats st.1) = Z.of_nat (length calls) /\
  downloaded (stats st.1) = Z.of_nat (length (written st.2)) /\
  length (JsMap.entries (hashToPath st.1)) = length (written st.2) /\
  bytesWritten st.2 <= totalSize (stats st.1) /\
  0 <= duplicates (stats st.1) /\ 0 <= failed (stats st.1) /\
  downloaded (stats st.1) + duplicates (stats st.1) <= total (stats st.1).
Proof.
  intros st.
  destruct (run_accounted _ calls (fresh_accounted c existingDirs))
    as [Hdl Hh Hts (Hd & Hf & Hsum) _ _].
  fold st in Hdl, Hh, Hts, Hd, Hf, Hsum.
  split; [unfold st; rewrite run_total; simpl; lia|]. done.
Qed.

(** X18: With a non-negative ceiling, no file a job writes is longer than
    [maxSize], the files written by an ['end'] handler that runs after the
    size error included. *)
Theorem written_files_within_ceiling c existingDirs calls p data :
  let st := run (fresh c existingDirs) calls in
  0 <= maxSize (new c) ->
  (p, data) ∈ written st.2 ->
  Z.of_nat (length data) <= maxSize (new c).
Proof.
  intros st Hm Hin.
  pose proof (run_accounted _ calls (fresh_accounted c existingDirs)) as Ha.
  fold st in Ha.
  assert (Hms : maxSize st.1 = maxSize (new c)) by apply run_maxSize.
  pose proof (acc_sizes _ Ha) as Hall. rewrite Hms in Hall.
  specialize (Hall Hm). rewrite Forall_forall in Hall.
  exact (Hall (p, data) Hin).
Qed.

(** X19: Every URL of the registry points to a path at which the job wrote
    a file with the URL's hash. *)
Theorem registered_url_backed c existingDirs calls u p :
  let st := run (fresh c existingDirs) calls in
  JsMap.get (urlToPath st.1) u = Some p ->
  exists h data,
    JsMap.get (urlToHash st.1) u = Some h /\
    (p, data) ∈ written st.2 /\
    md5hex data = h.
Proof.
  intros st Hp.
  pose proof (run_accounted _ calls (fresh_accounted c existingDirs)) as Ha.
  pose proof (run_consistent _ calls (fresh_consistent c existingDirs)) as Hc.
  fold st in Ha, Hc.
  destruct (url_path_canonical _ Hc u p Hp) as (h & Hh & Hhp).
  destruct (acc_backed _ Ha h p Hhp) as (data & Hin & Hd).
  by exists h, data.
Qed.

(** ** The manifest *)

Lemma manifest_urls d :
  map m_url (manifest_images (generateManifest d)) = (urlToPath d).*1.
Proof.
  unfold generateManifest, JsMap.entries. cbn [manifest_images].
  induction (urlToPath d) as [|[u p] m IH]; [done|]. simpl. by rewrite IH.
Qed.

(** X20: The manifest of a job is closed: it lists every registered URL once,
    every image entry carries a hash whose [hash_map] entry has the same
    path, and [unique_files] is the number of [hash_map] entries. *)
Theorem manifest_integrity c existingDirs calls :
  let d := (run (fresh c existingDirs) calls).1 in
  let m := generateManifest d in
  NoDup (map m_url (manifest_images m)) /\
  (forall e, In e (manifest_images m) ->
     exists h, m_hash e = Some h /\
       In {| h_hash := h; h_localPath := m_localPath e;
             h_fileName := path_basename (m_localPath e) |} (hash_map m)) /\
  downloaded (statistics m) = Z.of_nat (length (hash_map m)).
Proof.
  intros d m.
  pose proof (run_accounted _ calls (fresh_accounted c existingDirs)) as Ha.
  pose proof (run_consistent _ calls (fresh_consistent c existingDirs)) as Hc.
  fold d in Ha, Hc. split; [|split].
  - unfold m. rewrite manifest_urls. exact (urlToPath_wf _ Hc).
  - intros e Hin.
    apply (manifest_entry_inv _ _ (urlToPath_wf _ Hc)) in Hin as [Hget He].
    destruct (url_path_canonical _ Hc _ _ Hget) as (h & Hh & Hhp).
    exists h. split; [by rewrite He|].
    unfold m, generateManifest. cbn [hash_map].
    apply in_map_iff. exists (h, m_localPath e). split; [done|].
    apply list_elem_of_In. by apply JsMapFacts.entry_get.
  - unfold m, generateManifest. cbn [hash_map statistics].
    rewrite length_map. pose proof (acc_hashes _ Ha) as Hh.
    pose proof (acc_downloaded _ Ha) as Hd. simpl in Hh, Hd.
    fold d in Hh, Hd. by rewrite Hh.
Qed.

(** ** Annotating the pages *)

Lemma updateImage_src d img : src (updateImage d img) = src img.
Proof. unfold updateImage. by destruct (_ ≫= _). Qed.

Lemma updateImage_idempotent d img :
  updateImage d (updateImage d img) = updateImage d img.
Proof.
  unfold updateImage at 1. rewrite updateImage_src.
  unfold updateImage. by destruct (src img ≫= JsMap.get (urlToPath d)).
Qed.

(** X21: [updatePagesWithLocalPaths] keeps the pages, their images and the
    [src] of every image in place, leaves pages without an image array as
    they are, and applying it twice is the same as applying it once. *)
Theorem updatePagesWithLocalPaths_stable d pages :
  updatePagesWithLocalPaths d (updatePagesWithLocalPaths d pages)
    = updatePagesWithLocalPaths d pages /\
  map (fun page => map src <$> images page) (updatePagesWithLocalPaths d pages)
    = map (fun page => map src <$> images page) pages /\
  (forall page, In page pages -> images page = None ->
                In page (updatePagesWithLocalPaths d pages)).
Proof.
  unfold updatePagesWithLocalPaths. split; [|split].
  - rewrite map_map. apply map_ext. intros page.
    destruct (images page) as [imgs|] eqn:Hi; simpl; [|by rewrite Hi].
    do 2 f_equal. rewrite map_map. apply map_ext, updateImage_idempotent.
  - rewrite map_map. apply map_ext. intros page.
    destruct (images page) as [imgs|] eqn:Hi; simpl; [|by rewrite Hi].
    f_equal. rewrite map_map. apply map_ext, updateImage_src.
  - intros page Hin Hnone. apply in_map_iff. exists page.
    by rewrite Hnone.
Qed.

(** ** Batches *)

(** What one call does to the counters, by its outcome. *)
Lemma transfer_counters d w u resp o d' w' :
  transfer d w u resp o d' w' ->
  failed (stats d) <= failed (stats d') /\
  match o with
  | Some (Resolved r) =>
      if duplicate r
      then downloaded (stats d') = downloaded (stats d) /\
           duplicates (stats d') = duplicates (stats d) + 1
      else downloaded (stats d') = downloaded (stats d) + 1 /\
           duplicates (stats d') = duplicates (stats d)
  | _ =>
      downloaded (stats d) <= downloaded (stats d') /\
      duplicates (stats d) <= duplicates (stats d') /\
      downloaded (stats d') + duplicates (stats d')
        <= downloaded (stats d) + duplicates (stats d) + 1
  end.
Proof.
  intros [p Hu|o2 d2 w2 Hu Hsbf Hw _ Hnr
         |lp data n da wa o1 d1 w1 o2 d2 w2 Hu _ _ Hsbf Hwa _ _ Hend Hsbf1 Hw1 _ Ho].
  - simpl. lia.
  - destruct Hsbf; simpl in *. split; [lia|].
    destruct o2 as [[r|e]|]; [by destruct (Hnr r)|lia..].
  - destruct Hsbf, Hsbf1; simpl in *.
    unfold onEnd in Hend.
    destruct (JsMap.get (hashToPath da) (md5hex data)) as [p|];
      injection Hend as <- <- <-; simpl in *;
      (split; [lia|]);
      destruct Ho as [->|(e & ->)]; simpl; lia.
Qed.

Lemma downloadLoop_counters net baseUrl urls acc d w res d' w' :
  downloadLoop net baseUrl urls acc d w = (Some res, d', w') ->
  res_statistics res = res_statistics acc /\
  total (stats d') = total (stats d) + Z.of_nat (length urls) /\
  (length (res_success res) + length (res_duplicates res) + length (res_failed res)
   = length (res_success acc) + length (res_duplicates acc) + length (res_failed acc)
     + length urls)%nat /\
  downloaded (stats d) + Z.of_nat (length (res_success res))
    <= downloaded (stats d') + Z.of_nat (length (res_success acc)) /\
  duplicates (stats d) + Z.of_nat (length (res_duplicates res))
    <= duplicates (stats d') + Z.of_nat (length (res_duplicates acc)) /\
  downloaded (stats d') + duplicates (stats d')
    <= downloaded (stats d) + duplicates (stats d) + Z.of_nat (length urls) /\
  failed (stats d) <= failed (stats d').
Proof.
  revert acc d w. induction urls as [|u urls IH]; intros acc d w.
  { simpl. intros [= <- <- <-]. repeat split; lia. }
  cbn [downloadLoop].
  pose proof (downloadImage_transfer d w u baseUrl (net u)) as Ht.
  destruct (downloadImage d w u baseUrl (net u)) as [[o d1] w1].
  pose proof (transfer_counters _ _ _ _ _ _ _ Ht) as [Hf Hc].
  destruct (transfer_same _ _ _ _ _ _ _ Ht) as (_ & _ & Htot).
  destruct o as [[r|e]|]; [| |done].
  - intros Hloop. apply IH in Hloop as (Hst & Ht' & Hlen & Hdl & Hdup & Hsum & Hfl).
    destruct (duplicate r); simpl in *; rewrite ?length_app in *; simpl in *;
      repeat split; try done; lia.
  - intros Hloop. apply IH in Hloop as (Hst & Ht' & Hlen & Hdl & Hdup & Hsum & Hfl).
    simpl in *; rewrite ?length_app in *; simpl in *;
      repeat split; try done; lia.
Qed.

(** X22: The statistics of a batch that returns against its lists: the
    block is the downloader's statistics after the batch; [total] has
    grown by the number of URLs, which is the number of records in the
    three lists; [downloaded] and [duplicates] have grown by at least the
    lengths of [success] and [duplicates], and together by at most the
    number of URLs; [failed] has not shrunk. *)
Theorem downloadAllImages_statistics net d w pages baseUrl res d' w' :
  downloadAllImages net d w pages baseUrl = (Some res, d', w') ->
  let n := length (uniqueImageUrls pages) in
  res_statistics res = stats d' /\
  total (stats d') = total (stats d) + Z.of_nat n /\
  (length (res_success res) + length (res_duplicates res)
     + length (res_failed res))%nat = n /\
  downloaded (stats d) + Z.of_nat (length (res_success res)) <= downloaded (stats d') /\
  duplicates (stats d) + Z.of_nat (length (res_duplicates res)) <= duplicates (stats d') /\
  downloaded (stats d') + duplicates (stats d')
    <= downloaded (stats d) + duplicates (stats d) + Z.of_nat n /\
  failed (stats d) <= failed (stats d').
Proof.
  unfold downloadAllImages.
  match goal with |- context [downloadLoop _ _ _ ?a _ _] => set (acc := a) end.
  pose proof (downloadLoop_counters net baseUrl (uniqueImageUrls pages) acc d w) as Hl.
  destruct (downloadLoop _ _ _ _ _ _) as [[[r|] d1] w1]; [|done].
  simpl. intros [= <- <- <-]. cbv zeta.
  destruct (Hl r d1 w1 eq_refl) as (_ & Ht & Hlen & Hdl & Hdup & Hsum & Hf).
  simpl in *. repeat split; try done; lia.
Qed.

Lemma downloadImage_urlToPath d w u baseUrl resp v p :
  JsMap.get (urlToPath d) v = Some p ->
  JsMap.get (urlToPath (downloadImage d w u baseUrl resp).1.2) v = Some p.
Proof.
  intros Hp. pose proof (downloadImage_effect d w u baseUrl resp) as He.
  destruct (downloadImage d w u baseUrl resp) as [[o d1] w1].
  by eapply effect_urlToPath.
Qed.

Lemma downloadLoop_cached net baseUrl urls acc d w u p res d' w' :
  JsMap.get (urlToPath d) u = Some p ->
  u ∈ urls ->
  downloadLoop net baseUrl urls acc d w = (Some res, d', w') ->
  exists r, r ∈ res_duplicates res /\
            url r = u /\ cached r = true /\ localPath r = p.
Proof.
  intros Hp Hin Hloop.
  apply list_elem_of_lookup in Hin as [i Hi].
  destruct (downloadLoop_filed _ _ _ _ _ _ _ _ _ Hloop) as (_ & _ & _ & _ & Hall).
  specialize (Hall i u Hi). cbv zeta in Hall.
  rewrite (downloadImage_registered _ _ _ _ _ p) in Hall
    by by apply run_urlToPath.
  simpl in Hall. eauto.
Qed.

Lemma downloadLoop_requests net baseUrl urls acc d w :
  exists fetchedUrls,
    requested (downloadLoop net baseUrl urls acc d w).2
      = (requested w ++ fetchedUrls)%list /\
    fetchedUrls `sublist_of` urls /\
    forall v, v ∈ fetchedUrls -> JsMap.get (urlToPath d) v = None.
Proof.
  revert acc d w. induction urls as [|u urls IH]; intros acc d w.
  { exists []. simpl. rewrite app_nil_r. split; [done|]. split; [done|].
    by intros v Hv%elem_of_nil. }
  cbn [downloadLoop].
  pose proof (downloadImage_transfer d w u baseUrl (net u)) as Ht.
  pose proof (fun v p => downloadImage_urlToPath d w u baseUrl (net u) v p) as Hmono.
  destruct (downloadImage d w u baseUrl (net u)) as [[o d1] w1].
  simpl in Hmono.
  assert (Hrest : forall acc',
    exists fetchedUrls,
      requested (downloadLoop net baseUrl urls acc' d1 w1).2
        = (requested w ++ fetchedUrls)%list /\
      fetchedUrls `sublist_of` (u :: urls) /\
      forall v, v ∈ fetchedUrls -> JsMap.get (urlToPath d) v = None).
  { intros acc'. destruct (IH acc' d1 w1) as (l & Hl & Hsub & Hnone).
    assert (Hnone' : forall v, v ∈ l -> JsMap.get (urlToPath d) v = None).
    { intros v Hv. specialize (Hnone v Hv).
      destruct (JsMap.get (urlToPath d) v) as [q|] eqn:Hq; [|done].
      rewrite (Hmono v q Hq) in Hnone. done. }
    destruct (transfer_requested _ _ _ _ _ _ _ Ht) as [Hr|[Hu Hr]]; rewrite Hl, Hr.
    - exists l. split; [done|]. split; [by apply sublist_cons|done].
    - exists (u :: l). rewrite <- app_assoc. split; [done|].
      split; [by apply sublist_skip|].
      intros v [->|Hv]%elem_of_cons; auto. }
  destruct o as [[r|e]|]; [apply Hrest..|].
  simpl. destruct (transfer_requested _ _ _ _ _ _ _ Ht) as [Hr|[Hu Hr]]; rewrite Hr.
  - exists []. rewrite app_nil_r. split; [done|]. split; [apply sublist_nil_l|].
    by intros v Hv%elem_of_nil.
  - exists [u]. split; [done|]. split; [by apply sublist_skip, sublist_nil_l|].
    by intros v ->%list_elem_of_singleton.
Qed.

(** X23: A batch does not fetch what the job already has: no request of the
    batch is for a URL that is registered when it starts, whether the
    batch returns or not; when it returns, the URL is reported in
    [duplicates] as a cached record with its registered path. *)
Theorem batch_skips_registered net d w pages baseUrl u p :
  let batch := downloadAllImages net d w pages baseUrl in
  JsMap.get (urlToPath d) u = Some p ->
  u ∈ uniqueImageUrls pages ->
  (exists fetchedUrls,
     requested batch.2 = (requested w ++ fetchedUrls)%list /\ u ∉ fetchedUrls) /\
  (forall res, batch.1.1 = Some res ->
     exists r, r ∈ res_duplicates res /\
               url r = u /\ cached r = true /\ localPath r = p).
Proof.
  intros batch Hp Hin. unfold batch, downloadAllImages.
  match goal with |- context [downloadLoop _ _ _ ?a _ _] => set (acc := a) end.
  pose proof (downloadLoop_cached net baseUrl (uniqueImageUrls pages) acc d w u p) as Hc.
  pose proof (downloadLoop_requests net baseUrl (uniqueImageUrls pages) acc d w)
    as (l & Hl & _ & Hnone).
  destruct (downloadLoop _ _ _ _ _ _) as [[r d1] w1]. simpl in *.
  split.
  - exists l. split; [done|].
    intros Hu. specialize (Hnone u Hu). congruence.
  - intros res Hres. destruct r as [r|]; [|done]. injection Hres as <-.
    by apply (Hc r d1 w1).
Qed.


(** ** First write wins *)

(** Every URL with a hash has a path. *)
Definition hashed_has_path (d : Downloader) : Prop :=
  forall u h, JsMap.get (urlToHash d) u = Some h -> is_Some (JsMap.get (urlToPath d) u).

Lemma effect_hashed_has_path d w u d' w' :
  effect d w u d' w' -> hashed_has_path d -> hashed_has_path d'.
Proof.
  intros [d1 w1 _ Huh Hup _|d1 w1 data q _ _ _ Huh Hup _|d1 w1 data lp _ _ _ Huh Hup _]
    Hinv v h; rewrite Huh, Hup; [apply Hinv|..];
    rewrite !JsMapFacts.get_set; case_decide; eauto.
Qed.

Lemma effect_urlToHash d w u d' w' v h :
  effect d w u d' w' -> hashed_has_path d ->
  JsMap.get (urlToHash d) v = Some h -> JsMap.get (urlToHash d') v = Some h.
Proof.
  intros He Hinv Hh. destruct (Hinv v h Hh) as [p Hp].
  destruct He as [d1 w1 _ Huh _ _|d1 w1 data q Hu _ _ Huh _ _|d1 w1 data lp Hu _ _ Huh _ _];
    rewrite Huh; [done|..];
    rewrite JsMapFacts.get_set; case_decide; congruence.
Qed.

Lemma run_hashed_has_path st calls :
  hashed_has_path st.1 -> hashed_has_path (run st calls).1.
Proof.
  revert st. induction calls as [|c calls IH]; intros st Hinv; simpl; [done|].
  apply IH. eapply effect_hashed_has_path; [apply step_effect|done].
Qed.

Lemma run_urlToHash st calls v h :
  hashed_has_path st.1 ->
  JsMap.get (urlToHash st.1) v = Some h ->
  JsMap.get (urlToHash (run st calls).1) v = Some h.
Proof.
  revert st. induction calls as [|c calls IH]; intros st Hinv Hh; simpl; [done|].
  apply IH.
  - eapply effect_hashed_has_path; [apply step_effect|done].
  - eapply effect_urlToHash; [apply step_effect|done..].
Qed.

(** X25: What the registry holds for a URL never changes during a job: its
    path, its hash and the canonical path of that hash stay as first
    written, whatever is downloaded afterwards (the same URL again, with
    other bytes, included). *)
Theorem registry_permanent c existingDirs calls more u p :
  let st := run (fresh c existingDirs) calls in
  let st' := run st more in
  JsMap.get (urlToPath st.1) u = Some p ->
  JsMap.get (urlToPath st'.1) u = Some p /\
  JsMap.get (urlToHash st'.1) u = JsMap.get (urlToHash st.1) u /\
  JsMap.get (urlToHash st'.1) u ≫= JsMap.get (hashToPath st'.1) = Some p.
Proof.
  intros st st' Hp.
  pose proof (run_consistent _ calls (fresh_consistent c existingDirs)) as Hc.
  fold st in Hc. destruct (url_path_canonical _ Hc u p Hp) as (h & Hh & Hhp).
  assert (Hinv : hashed_has_path st.1).
  { apply run_hashed_has_path. intros v h'. done. }
  assert (Hh' : JsMap.get (urlToHash st'.1) u = Some h) by by apply run_urlToHash.
  split; [by apply run_urlToPath|]. split; [by rewrite Hh', Hh|].
  rewrite Hh'. simpl. by apply run_hashToPath.
Qed.

(** ** Two URLs, one path *)


(** ** The size ceiling *)

(** The bytes the ['data'] handler counts up to the ['end'] of a body. *)
Fixpoint receivedSize (events : list Event) : Z :=
  match events with
  | [] => 0
  | Data chunk :: rest => Z.of_nat (length chunk) + receivedSize rest
  | End :: _ => 0
  | _ :: rest => receivedSize rest
  end.

Lemma declaredTooLarge_exceeds m n :
  0 <= m -> n > m -> declaredTooLarge m (Some n) = Some n.
Proof.
  intros Hm Hn. unfold declaredTooLarge.
  destruct (n =? 0) eqn:H0; [apply Z.eqb_eq in H0; lia|].
  destruct (n >? m) eqn:Hgt; [done|].
  rewrite Z.gtb_ltb in Hgt. apply Z.ltb_ge in Hgt. lia.
Qed.

Lemma onEnd_destroyed d w u localPath data n :
  destroyed (onEnd d w u localPath data n).2 = destroyed w.
Proof. unfold onEnd. by destruct (JsMap.get _ _). Qed.

(** A settled promise stays as it is, and so does the record of a
    destroyed request. *)
Lemma deliver_keeps u localPath events t d w o :
  promise t = Some o ->
  u ∈ destroyed w ->
  let '(t', d', w') := foldl (deliver u localPath) (t, d, w) events in
  promise t' = Some o /\ u ∈ destroyed w'.
Proof.
  revert t d w. induction events as [|e events IH]; intros t d w Hp Hd; [done|].
  cbn [foldl]. destruct e as [chunk| |msg|]; cbn [deliver].
  - destruct (flowing t); [|by apply IH].
    unfold onData. destruct (_ >? _).
    + apply IH; simpl; [by rewrite Hp|]. apply elem_of_app. by left.
    + by apply IH.
  - destruct (flowing t); [|by apply IH].
    pose proof (onEnd_destroyed d w u localPath (downloadedData t) (downloadedSize t))
      as Hde.
    destruct (onEnd _ _ _ _ _ _) as [[o1 d1] w1]. simpl in Hde.
    apply IH; simpl; [by rewrite Hp|by rewrite Hde].
  - apply IH; simpl; [by rewrite Hp|done].
  - apply IH; simpl; [by rewrite Hp|]. apply elem_of_app. by left.
Qed.

(** A body that outgrows the ceiling is rejected, and the request
    destroyed, by the chunk that passes it. *)
Lemma deliver_exceeds u localPath events t d w :
  flowing t = true ->
  downloadedSize t <= maxSize d ->
  downloadedSize t + receivedSize events > maxSize d ->
  promise t = None \/ (exists e, promise t = Some (Rejected e)) ->
  let '(t', d', w') := foldl (deliver u localPath) (t, d, w) events in
  (exists e, promise t' = Some (Rejected e) /\
     (promise t = None ->
      forallb (fun ev => negb (isRequestEvent ev)) events = true ->
      e = SizeExceeded)) /\
  u ∈ destroyed w'.
Proof.
  revert t d w. induction events as [|ev events IH]; intros t d w Hfl Hle Hgt Hp.
  { simpl in Hgt. lia. }
  cbn [foldl]. destruct ev as [chunk| |msg|]; cbn [deliver]; simpl in Hgt.
  - rewrite Hfl. unfold onData.
    destruct (_ >? maxSize d) eqn:Hbig.
    + assert (Hdest : u ∈ destroyed (destroy w u)).
      { simpl. apply elem_of_app. right. by apply list_elem_of_singleton. }
      destruct Hp as [Hp|(e & Hp)].
      * match goal with |- context [foldl _ (?t1, d, destroy w u) events] =>
          pose proof (deliver_keeps u localPath events t1 d (destroy w u)
                        (Rejected SizeExceeded)) as Hk end.
        destruct (foldl _ _ _) as [[t' d'] w'].
        destruct Hk as [Hk Hd]; [simpl; by rewrite Hp|done|]. eauto.
      * match goal with |- context [foldl _ (?t1, d, destroy w u) events] =>
          pose proof (deliver_keeps u localPath events t1 d (destroy w u)
                        (Rejected e)) as Hk end.
        destruct (foldl _ _ _) as [[t' d'] w'].
        destruct Hk as [Hk Hd]; [simpl; by rewrite Hp|done|].
        split; [|done]. exists e. split; [done|]. congruence.
    + rewrite Z.gtb_ltb in Hbig. apply Z.ltb_ge in Hbig.
      match goal with |- context [foldl _ (?t1, d, w) events] =>
        pose proof (IH t1 d w Hfl) as IH1 end.
      destruct (foldl _ _ _) as [[t' d'] w']. simpl in IH1.
      destruct IH1 as [(e & He & Hsz) Hd]; [lia|lia|done|]. eauto.
  - lia.
  - match goal with |- context [foldl _ (?t1, ?d1, w) events] =>
      pose proof (IH t1 d1 w Hfl) as IH1 end.
    destruct (foldl _ _ _) as [[t' d'] w']. simpl in IH1.
    destruct IH1 as [(e & He & Hsz) Hd]; [lia|lia| |].
    + right. destruct Hp as [->|(e & ->)]; eauto.
    + split; [|done]. exists e. split; [done|]. by intros _ [=].
  - match goal with |- context [foldl _ (?t1, ?d1, ?w1) events] =>
      pose proof (IH t1 d1 w1 Hfl) as IH1 end.
    destruct (foldl _ _ _) as [[t' d'] w']. simpl in IH1.
    destruct IH1 as [(e & He & Hsz) Hd]; [lia|lia| |].
    + right. destruct Hp as [->|(e & ->)]; eauto.
    + split; [|done]. exists e. split; [done|]. by intros _ [=].
Qed.

(** X27: The size ceiling as far as it holds.  A request answered with
    status 200 whose declared length, or whose body up to its ['end'],
    exceeds a non-negative [maxSize] is destroyed and its call rejects,
    with a size error when the request emits no ['error'] or ['timeout'].
    A declared length above the ceiling rejects with it and leaves
    registry and disk as they were, whatever events follow. *)
Theorem size_ceiling_rejects d w u baseUrl contentLength events :
  0 <= maxSize d ->
  JsMap.get (urlToPath d) u = None ->
  requestable u = true ->
  (exists n, contentLength = Some n /\ n > maxSize d) \/
    receivedSize events > maxSize d ->
  let '(o, d', w') := downloadImage d w u baseUrl (Reply 200 contentLength events) in
  (exists e, o = Some (Rejected e) /\
     (forallb (fun ev => negb (isRequestEvent ev)) events = true ->
      is_size_error e = true)) /\
  u ∈ destroyed w' /\
  (forall n, contentLength = Some n -> n > maxSize d ->
     o = Some (Rejected (TooLarge n)) /\
     hashToPath d' = hashToPath d /\
     urlToHash d' = urlToHash d /\
     urlToPath d' = urlToPath d /\
     written w' = written w).
Proof.
  intros Hm Hu Hreq Hbig.
  pose proof (downloadImage_transfer d w u baseUrl (Reply 200 contentLength events))
    as Ht.
  unfold downloadImage in *.
  change (urlToPath (bump_total d)) with (urlToPath d) in *. rewrite Hu in *.
  unfold requestable in Hreq. destruct (parseUrl u) as [url|]; [|done].
  rewrite Hreq in *. unfold onResponse in *.
  change (maxSize (bump_total d)) with (maxSize d) in *. simpl negb in *. cbv iota in *.
  set (lp := getLocalPathFromUrl (bump_total d) u baseUrl) in *.
  set (w1 := httpGet (ensureDir w (path_dirname lp)) u) in *.
  assert (Hdest : u ∈ destroyed (destroy w1 u)).
  { simpl. apply elem_of_app. right. by apply list_elem_of_singleton. }
  destruct (declaredTooLarge (maxSize d) contentLength) as [n|] eqn:Hdecl.
  - (* the declared length is refused *)
    match goal with |- context [foldl _ (?t1, ?d1, destroy w1 u) events] =>
      pose proof (deliver_keeps u lp events t1 d1 (destroy w1 u)
                    (Rejected (TooLarge n)) eq_refl Hdest) as Hk end.
    destruct (foldl _ _ _) as [[t' d'] w']. destruct Hk as [Hk Hd].
    split; [by exists (TooLarge n)|]. split; [done|].
    intros n' -> Hn'. rewrite declaredTooLarge_exceeds in Hdecl by done.
    injection Hdecl as ->. split; [done|].
    cbv beta iota zeta in Ht.
    inversion Ht as [p Hp|o2 d2 w2 _ Hsbf Hw _ _
                    |lp' data k da wa o1 d1 w3 o2 d2 w2 _ Hacc];
      subst.
    + congruence.
    + by destruct Hsbf.
    + unfold accepted in Hacc.
      by rewrite declaredTooLarge_exceeds in Hacc by done.
  - (* the body outgrows the ceiling *)
    destruct Hbig as [(n & -> & Hn)|Hrec].
    { by rewrite declaredTooLarge_exceeds in Hdecl. }
    match goal with |- context [foldl _ (?t1, ?d1, w1) events] =>
      pose proof (deliver_exceeds u lp events t1 d1 w1 eq_refl) as Hx end.
    destruct (foldl _ _ _) as [[t' d'] w']. simpl in Hx.
    destruct Hx as [(e & He & Hsz) Hd]; [lia|lia|by left|].
    split; [|split; [done|]].
    + exists e. split; [done|]. intros Hall. by rewrite Hsz.
    + intros n -> Hn. by rewrite declaredTooLarge_exceeds in Hdecl.
Qed.

(** ** What [stats.failed] counts *)

(** The ['error'] and ['timeout'] events among the events of a request. *)
Fixpoint requestEvents (events : list Event) : Z :=
  match events with
  | [] => 0
  | e :: rest => (if isRequestEvent e then 1 else 0) + requestEvents rest
  end.

Lemma deliver_failed u localPath events t d w :
  failed (stats (foldl (deliver u localPath) (t, d, w) events).1.2)
  = failed (stats d) + requestEvents events.
Proof.
  revert t d w. induction events as [|e events IH]; intros t d w; simpl; [lia|].
  destruct e as [chunk| |msg|]; simpl.
  - destruct (flowing t); [|by rewrite IH].
    unfold onData. destruct (_ >? _); by rewrite IH.
  - destruct (flowing t); [|by rewrite IH].
    pose proof (onEnd_same d w u localPath (downloadedData t) (downloadedSize t))
      as (_ & _ & _ & Hf).
    destruct (onEnd _ _ _ _ _ _) as [[o1 d1] w1]. simpl in Hf.
    by rewrite IH, Hf.
  - rewrite IH. simpl. lia.
  - rewrite IH. simpl. lia.
Qed.

(** X28: [stats.failed] counts neither calls nor rejections.  A call that
    issues a request adds one for every ['error'] and every ['timeout']
    event of the request, whenever it comes, and nothing for an HTTP
    status error or a size error; a call whose URL does not parse or has
    no [http(s)] protocol adds one; a call answered from the registry adds
    nothing. *)
Theorem failed_counts_events d w u baseUrl resp :
  failed (stats (downloadImage d w u baseUrl resp).1.2)
  = failed (stats d) +
    match JsMap.get (urlToPath d) u with
    | Some _ => 0
    | None => if requestable u then requestEvents (responseEvents resp) else 1
    end.
Proof.
  unfold downloadImage. change (urlToPath (bump_total d)) with (urlToPath d).
  destruct (JsMap.get (urlToPath d) u) as [p|]; [simpl; lia|].
  unfold requestable. destruct (parseUrl u) as [url|]; [|done].
  destruct (_ || _); [|done].
  unfold onResponse.
  set (lp := getLocalPathFromUrl (bump_total d) u baseUrl).
  assert (Hfold : forall t w1 events,
    failed (stats (let '(t', d', w') :=
                     foldl (deliver u lp) (t, bump_total d, w1) events in
                   (promise t', d', w')).1.2)
    = failed (stats d) + requestEvents events).
  { intros t w1 events.
    pose proof (deliver_failed u lp events t (bump_total d) w1) as Hf.
    by destruct (foldl _ _ _) as [[t' d'] w']. }
  destruct resp as [events|statusCode contentLength events]; simpl responseEvents.
  - apply Hfold.
  - destruct (negb _); [apply Hfold|].
    destruct (declaredTooLarge _ _); apply Hfold.
Qed.

End Jobs.

(** ** Worked examples *)

#[local] Existing Instance Examples.exampleNode.

(** A body of two chunks of three bytes, against the ceiling of four,
    with and without its ['end']. *)
Definition twoChunks : Response :=
  Reply 200 None [Data logoBytes; Data logoBytes; End].
Definition twoChunksCut : Response :=
  Reply 200 None [Data logoBytes; Data logoBytes].

Lemma only_end_registers_witness :
  let st := step (fresh cfg []) getLogo in
  let out := downloadImage st.1 st.2 copyUrl base twoChunksCut in
  hashToPath out.1.2 = hashToPath st.1 /\
  urlToHash out.1.2 = urlToHash st.1 /\
  urlToPath out.1.2 = urlToPath st.1 /\
  written out.2 = written st.2 /\
  downloaded (stats out.1.2) = downloaded (stats st.1) /\
  totalSize (stats out.1.2) = totalSize (stats st.1) /\
  total (stats out.1.2) = total (stats st.1) + 1 /\
  forall r, out.1.1 = Some (Resolved r) -> cached r = true.
Proof.
  intros st out.
  pose proof (only_end_registers st.1 st.2 copyUrl base twoChunksCut) as Hno.
  fold out in Hno. destruct out as [[o d'] w']. apply Hno.
  right. simpl. rewrite !elem_of_cons, elem_of_nil. intros [?|[?|[]]]; discriminate.
Defined.

Lemma written_files_within_ceiling_witness :
  Z.of_nat (length logoBytes) <= maxSize (new cfg).
Proof.
  apply (written_files_within_ceiling cfg []
           [ {| call_url := logoUrl; call_base := base; call_response := twoChunks |} ]
           logoPath logoBytes).
  - simpl. lia.
  - vm_compute. apply list_elem_of_singleton. reflexivity.
Defined.

Lemma registered_url_backed_witness :
  let st := run (fresh cfg []) [getLogo; getCopy] in
  exists h data,
    JsMap.get (urlToHash st.1) copyUrl = Some h /\
    (logoPath, data) ∈ written st.2 /\
    md5hex data = h.
Proof.
  apply (registered_url_backed cfg [] [getLogo; getCopy] copyUrl logoPath).
  reflexivity.
Defined.

Lemma registry_permanent_witness :
  let st := run (fresh cfg []) [getLogo] in
  let st' := run st [ {| call_url := logoUrl; call_base := base;
                         call_response :=
                           Reply 200 None [Data [Byte.x47; Byte.x49; Byte.x46]; End] |};
                      getCopy ] in
  JsMap.get (urlToPath st'.1) logoUrl = Some logoPath /\
  JsMap.get (urlToHash st'.1) logoUrl = JsMap.get (urlToHash st.1) logoUrl /\
  JsMap.get (urlToHash st'.1) logoUrl ≫= JsMap.get (hashToPath st'.1) = Some logoPath.
Proof.
  apply (registry_permanent cfg [] [getLogo]).
  reflexivity.
Defined.

(** The batch over the logo page, every request answered with the
    logo; the logo's first URL was downloaded before. *)
Definition logoBatch : option BatchResult * Downloader * World :=
  let st := step (fresh cfg []) getLogo in
  downloadAllImages (fun _ => ok) st.1 st.2 [logoPage] base.

Lemma downloadAllImages_statistics_witness :
  let st := step (fresh cfg []) getLogo in
  let batch := downloadAllImages (fun _ => ok) st.1 st.2 [logoPage] base in
  let n := length (uniqueImageUrls [logoPage]) in
  exists res,
    batch.1.1 = Some res /\
    res_statistics res = stats batch.1.2 /\
    total (stats batch.1.2) = total (stats st.1) + Z.of_nat n /\
    (length (res_success res) + length (res_duplicates res)
       + length (res_failed res))%nat = n /\
    downloaded (stats st.1) + Z.of_nat (length (res_success res))
      <= downloaded (stats batch.1.2) /\
    duplicates (stats st.1) + Z.of_nat (length (res_duplicates res))
      <= duplicates (stats batch.1.2) /\
    downloaded (stats batch.1.2) + duplicates (stats batch.1.2)
      <= downloaded (stats st.1) + duplicates (stats st.1) + Z.of_nat n /\
    failed (stats st.1) <= failed (stats batch.1.2).
Proof.
  intros st batch n.
  pose proof (downloadAllImages_statistics (fun _ => ok) st.1 st.2 [logoPage] base)
    as Hs.
  unfold batch.
  destruct (downloadAllImages (fun _ => ok) st.1 st.2 [logoPage] base)
    as [[[res|] d'] w'] eqn:Hb; [|vm_compute in Hb; discriminate].
  exists res. split; [reflexivity|]. exact (Hs res d' w' eq_refl).
Defined.

Lemma batch_skips_registered_witness :
  let st := step (fresh cfg []) getLogo in
  (exists fetchedUrls,
     requested logoBatch.2 = (requested st.2 ++ fetchedUrls)%list /\
     logoUrl ∉ fetchedUrls) /\
  (forall res, logoBatch.1.1 = Some res ->
     exists r, r ∈ res_duplicates res /\
               url r = logoUrl /\ cached r = true /\ localPath r = logoPath).
Proof.
  intros st.
  apply (batch_skips_registered (fun _ => ok) st.1 st.2 [logoPage] base
           logoUrl logoPath).
  - reflexivity.
  - vm_compute. apply elem_of_cons. left. reflexivity.
Defined.



Lemma size_ceiling_rejects_witness :
  let out := downloadImage (new cfg) (fresh cfg []).2 logoUrl base twoChunks in
  (exists e, out.1.1 = Some (Rejected e) /\
     (true = true -> is_size_error e = true)) /\
  logoUrl ∈ destroyed out.2 /\
  (forall n, @None Z = Some n -> n > maxSize (new cfg) ->
     out.1.1 = Some (Rejected (TooLarge n)) /\
     hashToPath out.1.2 = hashToPath (new cfg) /\
     urlToHash out.1.2 = urlToHash (new cfg) /\
     urlToPath out.1.2 = urlToPath (new cfg) /\
     written out.2 = written (fresh cfg []).2).
Proof.
  intros out.
  pose proof (size_ceiling_rejects (new cfg) (fresh cfg []).2 logoUrl base None
                [Data logoBytes; Data logoBytes; End]) as Hs.
  fold twoChunks in Hs. fold out in Hs. destruct out as [[o d'] w']. apply Hs.
  - simpl. lia.
  - reflexivity.
  - reflexivity.
  - right. vm_compute. reflexivity.
Defined.

(** One request that times out: ['timeout'], then the ['error'] that
    [request.destroy()] raises.  One call, one rejection, two failures
    counted. *)
Lemma timeout_counted_twice :
  let silent := NoResponse [RequestTimeout; RequestError "socket hang up"] in
  let out := downloadImage (new cfg) (fresh cfg []).2 logoUrl base silent in
  out.1.1 = Some (Rejected DownloadTimeout) /\
  destroyed out.2 = [logoUrl] /\
  stats out.1.2 = {| total := 1; downloaded := 0; duplicates := 0;
                     failed := 2; totalSize := 0 |}.
Proof. vm_compute. repeat split. Qed.

End JobFacts.
